(** * rsync-go: the rolling-hash pipeline, the single-buffer reader and the frame codec

    A shallow embedding of [rsync/rsync.go], [sbuffer/sbuffer.go] and the
    record codec of [proto/proto.go].

    Conventions.
    - A Go [byte] is a [Byte.byte]; a [[]byte] is a [list byte].
    - [uint32] and [uint64] values are [Z] with the wrap-around written out
      ([u32], [u64]), and so are the conversions to [int] of values read off
      the wire ([i64]). An [int] that indexes a buffer is a [Z]: a buffer that
      was allocated has fewer than [2^63] bytes, and the sums of two of its
      indices do not wrap.
    - [io.Reader]s are explicit values threaded through the code.
    - A run-time panic is an outcome of its own, never an error value. *)

From Stdlib Require Import ZArith List Lia Bool Zdiv Setoid Morphisms Sorted.
From Stdlib Require Import Strings.Byte.
From Stdlib Require Strings.String.
Import Stdlib.Strings.String.StringSyntax.
From stdpp Require Import base option list list_numbers gmap.
Import ListNotations.
Local Open Scope Z_scope.

(** ** Machine integers *)

Definition u32 (x : Z) : Z := x mod 2 ^ 32.
Definition u64 (x : Z) : Z := x mod 2 ^ 64.

(** [int(x)] for a [uint64] x, and [int64(x)] for an [int]: two's complement. *)
Definition i64 (x : Z) : Z := (x + 2 ^ 63) mod 2 ^ 64 - 2 ^ 63.

(** [uint32(b)] for a byte. *)
Definition byteZ (b : byte) : Z := Z.of_N (Byte.to_N b).

(** [byte(x)]: the low eight bits. *)
Definition Zbyte (x : Z) : byte :=
  match Byte.of_N (Z.to_N (x mod 256)) with
  | Some b => b
  | None => x00
  end.

Definition len {A} (l : list A) : Z := Z.of_nat (length l).

(** ** Errors *)

Inductive error : Type :=
| EOF                     (* io.EOF *)
| ErrUnexpectedEOF        (* io.ErrUnexpectedEOF *)
| ErrOther (code : Z).    (* any other error of a stream or a callback *)

Definition error_eqb (a b : error) : bool :=
  match a, b with
  | EOF, EOF => true
  | ErrUnexpectedEOF, ErrUnexpectedEOF => true
  | ErrOther x, ErrOther y => x =? y
  | _, _ => false
  end.

(** ** Slices

    [v[lo:hi]] of a slice whose capacity equals its length; out of range is a
    run-time panic, rendered [None]. *)
Definition slice {A} (v : list A) (lo hi : Z) : option (list A) :=
  if (0 <=? lo) && (lo <=? hi) && (hi <=? len v)
  then Some (firstn (Z.to_nat (hi - lo)) (skipn (Z.to_nat lo) v))
  else None.

(** [copy(v[at:], src)] when it fits. *)
Definition blit {A} (v : list A) (at_ : Z) (src : list A) : list A :=
  firstn (Z.to_nat at_) v ++ src ++ skipn (Z.to_nat at_ + length src) v.

(** [v[i]]. *)
Definition index {A} (v : list A) (i : Z) : option A :=
  if 0 <=? i then nth_error v (Z.to_nat i) else None.

Module RSync.

(** ** rsync.go: constants and data *)

Definition DefaultBlockSize : Z := 1024 * 64.
Definition DefaultMaxDataOp : Z := DefaultBlockSize * 10.
Definition _M : Z := Z.shiftl 1 16.

Definition OpType := Z.
Definition BLOCK : OpType := 0.
Definition DATA : OpType := 1.

Record Operation := mkOp {
  Type_ : OpType;
  BlockIndex : Z;
  Data : list byte
}.

Record BlockHash := mkBlockHash {
  Index : Z;
  StrongHash : list byte;
  WeakHash : Z
}.

(** A [hash.Hash] used the way [uniqueHash] uses it (Reset, Write, Sum(nil))
    is the function from the bytes written to the digest. *)
Definition Hasher := list byte -> list byte.

Record RSync := mkRSync {
  BlockSize : Z;
  MaxDataOp : Z;
  UniqueHasher : option Hasher     (* [None] is Go's nil *)
}.

(** ** The weak hash *)

(** The body of the [for i := range v] loop of [βhash], from index [i] on:
    [n] is [len(v)], [a] and [b] the running [uint32] sums. *)
Fixpoint βloop (n i : Z) (v : list byte) (a b : Z) : Z * Z :=
  match v with
  | [] => (a, b)
  | x :: v' =>
      let a' := u32 (a + byteZ x) in
      let b' := u32 (b + u32 (u32 (u32 (u32 (n - 1) - u32 i) + 1) * byteZ x)) in
      βloop n (i + 1) v' a' b'
  end.

(** [βhash] returns [(β, β1, β2)]. *)
Definition βhash (v : list byte) : Z * Z * Z :=
  let '(a, b) := βloop (len v) 0 v 0 0 in
  (u32 ((a mod _M) + u32 (_M * (b mod _M))), a mod _M, b mod _M).

(** The [else] branch of the hash step of [CreateDelta]: the window now has
    [l] bytes ([uint32(sum.head-sum.tail)]), [αPop] left it and [αPush]
    entered it. Returns [(β, β1, β2)]. *)
Definition roll (l β1 β2 αPop αPush : Z) : Z * Z * Z :=
  let β1' := u32 (u32 (β1 - αPop) + αPush) mod _M in
  let β2' := u32 (u32 (β2 - u32 (u32 l * αPop)) + β1') mod _M in
  (u32 (β1' + u32 (_M * β2')), β1', β2').


(** ** Streams

    [io.ReadAtLeast] is only ever called with a buffer of exactly [min]
    bytes, so what it returns depends on the bytes the stream still holds and
    on how the stream ends, not on how the stream chunks its reads. A stream
    is therefore the bytes it has left and the error that follows them
    ([EOF] for a stream that simply ends). *)

Record Reader := mkReader {
  pending : list byte;
  ending : error
}.

(** [io.ReadAtLeast(r, buf, min)] with [len(buf) = min]: the bytes read, the
    error, the stream afterwards. *)
Definition ReadAtLeast (r : Reader) (min : Z) : list byte * option error * Reader :=
  if min <=? len (pending r) then
    (firstn (Z.to_nat min) (pending r), None,
     mkReader (skipn (Z.to_nat min) (pending r)) (ending r))
  else
    (pending r,
     Some (match ending r with
           | EOF => if len (pending r) =? 0 then EOF else ErrUnexpectedEOF
           | e => e
           end),
     mkReader [] (ending r)).

(** An [io.ReadSeeker]: a file, the read position, and the error a read meets
    at the end of the file. *)
Record ReadSeeker := mkReadSeeker {
  file : list byte;
  offset : Z;
  fault : error
}.

(** [Seek(off, 0)]; a negative offset is refused and the position stays. The
    callers drop the error. *)
Definition Seek (t : ReadSeeker) (off : Z) : ReadSeeker :=
  if 0 <=? off then mkReadSeeker (file t) off (fault t) else t.

Definition ReadAtLeastAt (t : ReadSeeker) (min : Z) : list byte * option error * ReadSeeker :=
  let '(got, err, _) :=
    ReadAtLeast (mkReader (skipn (Z.to_nat (offset t)) (file t)) (fault t)) min in
  (got, err, mkReadSeeker (file t) (offset t + len got) (fault t)).

(** An [io.Writer]: what was written, and how many more bytes it accepts
    ([None]: any number). A write that does not fit writes what fits and
    fails. *)
Record Writer := mkWriter {
  written : list byte;
  room : option nat
}.

Definition ErrShortWrite : error := ErrOther 28.

Definition Write (w : Writer) (p : list byte) : Writer * option error :=
  match room w with
  | None => (mkWriter (written w ++ p) None, None)
  | Some q =>
      if (length p <=? q)%nat then (mkWriter (written w ++ p) (Some (q - length p)%nat), None)
      else (mkWriter (written w ++ firstn q p) (Some O), Some ErrShortWrite)
  end.

(** [bytes.Equal]. *)
Fixpoint bytes_Equal (a b : list byte) : bool :=
  match a, b with
  | [], [] => true
  | x :: a', y :: b' => Byte.eqb x y && bytes_Equal a' b'
  | _, _ => false
  end.

Section WithMD5.

(** [crypto/md5]: Reset, Write, Sum(nil) of [md5.New()]. *)
Variable md5 : Hasher.

(** [uniqueHash]; a nil hasher is a nil dereference. *)
Definition uniqueHash (r : RSync) (v : list byte) : option (list byte) :=
  match UniqueHasher r with
  | Some h => Some (h v)
  | None => None
  end.

(** The [for] loop of [findUniqueHash]. *)
Fixpoint findUniqueHash_loop (hh : list BlockHash) (hashValue : list byte) : Z * bool :=
  match hh with
  | [] => (0, false)
  | block :: hh' =>
      if bytes_Equal (StrongHash block) hashValue then (Index block, true)
      else findUniqueHash_loop hh' hashValue
  end.

Definition findUniqueHash (hh : list BlockHash) (hashValue : list byte) : Z * bool :=
  if len hashValue =? 0 then (0, false) else findUniqueHash_loop hh hashValue.

Definition min (a b : Z) : Z := if a <? b then a else b.

(** ** BlockHashCount *)

Definition BlockHashCount (r : RSync) (targetLength : Z) : RSync * Z :=
  let r := if BlockSize r <=? 0
           then mkRSync DefaultBlockSize (MaxDataOp r) (UniqueHasher r) else r in
  let count := Z.quot targetLength (BlockSize r) in
  let count := if negb (Z.rem targetLength (BlockSize r) =? 0) then count + 1 else count in
  (r, count).

(** ** CreateSignature *)

(** A [SignatureWriter] is a callback with effects of its own: it takes the
    state it writes to and gives it back with its error. *)
Definition SignatureWriter (St : Type) := St -> BlockHash -> St * option error.

(** What a call comes to. [OutOfFuel] is the model's, not Go's: the loops
    below are cut after [fuel] rounds. *)
Inductive outcome : Type :=
| Returned (err : option error)
| Panicked
| OutOfFuel.

(** The [for loop] of [CreateSignature], entered with [loop = true]. *)
Fixpoint CreateSignature_loop {St} (fuel : nat) (r : RSync) (target : Reader)
    (sw : SignatureWriter St) (st : St) (index : Z) : Reader * St * outcome :=
  match fuel with
  | O => (target, st, OutOfFuel)
  | S fuel =>
      let '(block, err, target) := ReadAtLeast target (BlockSize r) in
      let emit (loop : bool) :=
        let '(weak, _, _) := βhash block in
        match uniqueHash r block with
        | None => (target, st, Panicked)
        | Some strong =>
            let '(st, err) := sw st (mkBlockHash index strong weak) in
            match err with
            | Some e => (target, st, Returned (Some e))
            | None =>
                if loop then CreateSignature_loop fuel r target sw st (u64 (index + 1))
                else (target, st, Returned None)
            end
        end in
      match err with
      | Some EOF => (target, st, Returned None)
      | Some ErrUnexpectedEOF => emit false
      | Some e => (target, st, Returned (Some e))
      | None => emit true
      end
  end.

Definition CreateSignature {St} (r : RSync) (target : Reader)
    (sw : SignatureWriter St) (st : St) : RSync * Reader * St * outcome :=
  let r := if BlockSize r <=? 0
           then mkRSync DefaultBlockSize (MaxDataOp r) (UniqueHasher r) else r in
  let r := match UniqueHasher r with
           | None => mkRSync (BlockSize r) (MaxDataOp r) (Some md5)
           | Some _ => r
           end in
  let '(target, st, res) :=
    CreateSignature_loop (S (length (pending target))) r target sw st 0 in
  (r, target, st, res).

(** The callback of the README: append to a slice. *)
Definition collect : SignatureWriter (list BlockHash) :=
  fun sig bl => (sig ++ [bl], None).

(** ** ApplyDelta *)

(** One round of [for op := range ops]: the writer and the basis afterwards,
    and [Some err] when the round returns [err] from [ApplyDelta]. *)
Definition ApplyDelta_op (r : RSync) (alignedTarget : Writer) (target : ReadSeeker)
    (op : Operation) : Writer * ReadSeeker * option error :=
  if Type_ op =? BLOCK then
    let target := Seek target (i64 (BlockSize r * i64 (BlockIndex op))) in
    let '(block, err, target) := ReadAtLeastAt target (BlockSize r) in
    let write (_ : unit) :=
      let '(alignedTarget, err) := Write alignedTarget block in
      (alignedTarget, target, err) in
    match err with
    | Some EOF => (alignedTarget, target, None)       (* [break] leaves the switch *)
    | Some ErrUnexpectedEOF => write tt
    | Some e => (alignedTarget, target, Some e)
    | None => write tt
    end
  else if Type_ op =? DATA then
    let '(alignedTarget, err) := Write alignedTarget (Data op) in
    (alignedTarget, target, err)
  else (alignedTarget, target, None).

(** The channel is the list of the operations sent on it before it is closed. *)
Fixpoint ApplyDelta_loop (r : RSync) (alignedTarget : Writer) (target : ReadSeeker)
    (ops : list Operation) : Writer * ReadSeeker * option error :=
  match ops with
  | [] => (alignedTarget, target, None)
  | op :: ops' =>
      match ApplyDelta_op r alignedTarget target op with
      | (alignedTarget, target, Some e) => (alignedTarget, target, Some e)
      | (alignedTarget, target, None) => ApplyDelta_loop r alignedTarget target ops'
      end
  end.

Definition ApplyDelta (r : RSync) (alignedTarget : Writer) (target : ReadSeeker)
    (ops : list Operation) : RSync * Writer * ReadSeeker * option error :=
  let r := if BlockSize r <=? 0
           then mkRSync DefaultBlockSize (MaxDataOp r) (UniqueHasher r) else r in
  let '(alignedTarget, target, err) := ApplyDelta_loop r alignedTarget target ops in
  (r, alignedTarget, target, err).

(** ** CreateDelta *)

(** [hashLookup]: each weak hash with the entries that have it, in the order
    of the signature. *)
Definition hashLookup_of (signature : list BlockHash) : gmap Z (list BlockHash) :=
  fold_left (fun hashLookup h =>
               let key := WeakHash h in
               <[key := default [] (hashLookup !! key) ++ [h]]> hashLookup)
            signature ∅.

Record section := mkSection { tail : Z; head : Z }.

(** The variables of [CreateDelta] that live across rounds of its loop, the
    source, and the operations sent on [ops] so far. An operation carries the
    bytes its slice holds when it is sent. *)
Record scan := mkScan {
  data : section;
  sum : section;
  validTo : Z;
  prevValidTo : Z;
  αPop : Z;
  β : Z;
  β1 : Z;
  β2 : Z;
  rolling : bool;
  dirty : bool;
  lastRun : bool;
  buffer : list byte;
  unread : Reader;                (* the source, from where it was read to *)
  ops : list Operation
}.

(** How a part of the loop body ends: go on with the body, [break], [return
    err], or panic. *)
Inductive flow : Type :=
| Continue (s : scan)
| Break (s : scan)
| Fail (s : scan) (e : error)
| Panic (s : scan).

Definition bind (f : flow) (k : scan -> flow) : flow :=
  match f with
  | Continue s => k s
  | _ => f
  end.

(** [if sum.head >= validTo { ... }]: wrap the buffer when a block no longer
    fits, read a block. *)
Definition refill (r : RSync) (s : scan) : flow :=
  if head (sum s) >=? validTo s then
    let wrap := validTo s + BlockSize r >? len (buffer s) in
    let prevValidTo' := if wrap then validTo s else prevValidTo s in
    let validTo' := if wrap then 0 else validTo s in
    let sum_tail' := if wrap then 0 else tail (sum s) in
    match slice (buffer s) validTo' (validTo' + BlockSize r) with
    | None => Panic s
    | Some _ =>
        let '(got, err, source') := ReadAtLeast (unread s) (BlockSize r) in
        let n := len got in
        let buffer' := blit (buffer s) validTo' got in
        let validTo' := validTo' + n in
        let after (lastRun' dirty' : bool) (data_head' : Z) :=
          mkScan (mkSection (tail (data s)) data_head')
                 (mkSection sum_tail' (head (sum s)))
                 validTo' prevValidTo' (αPop s) (β s) (β1 s) (β2 s)
                 (rolling s) dirty' lastRun' buffer' source' (ops s) in
        match err with
        | Some e =>
            if negb (error_eqb e EOF) && negb (error_eqb e ErrUnexpectedEOF)
            then Fail (after (lastRun s) (dirty s) (head (data s))) e
            else
              let s' := after true true validTo' in
              if n =? 0 then Break s' else Continue s'
        | None =>
            let s' := after (lastRun s) (dirty s) (head (data s)) in
            if n =? 0 then Break s' else Continue s'
        end
    end
  else Continue s.

(** [if data.tail > data.head { ... }]. *)
Definition wrapFlush (s : scan) : flow :=
  if tail (data s) >? head (data s) then
    match slice (buffer s) (tail (data s)) (prevValidTo s) with
    | None => Panic s
    | Some d =>
        Continue (mkScan (mkSection 0 (head (data s))) (sum s)
                         (validTo s) (prevValidTo s) (αPop s) (β s) (β1 s) (β2 s)
                         (rolling s) (dirty s) (lastRun s) (buffer s) (unread s)
                         (ops s ++ [mkOp DATA 0 d]))
    end
  else Continue s.

(** [sum.head = min(...)] and the weak hash of the window, seeded or rolled. *)
Definition window (r : RSync) (s : scan) : flow :=
  let sum_head := min (tail (sum s) + BlockSize r) (validTo s) in
  let after (h : Z * Z * Z) :=
    let '(β', β1', β2') := h in
    mkScan (data s) (mkSection (tail (sum s)) sum_head)
           (validTo s) (prevValidTo s) (αPop s) β' β1' β2'
           true (dirty s) (lastRun s) (buffer s) (unread s) (ops s) in
  if negb (rolling s) then
    match slice (buffer s) (tail (sum s)) sum_head with
    | None => Panic s
    | Some v => Continue (after (βhash v))
    end
  else
    match index (buffer s) (sum_head - 1) with
    | None => Panic s
    | Some b =>
        let αPush := byteZ b in
        Continue (after (roll (sum_head - tail (sum s)) (β1 s) (β2 s) (αPop s) αPush))
    end.

(** [foundHash = false] and the probe of [hashLookup]: [(blockIndex,
    foundHash)], or [None] for a panic. [blockIndex] is read only when
    [foundHash] is set, so it is given as 0 when no search is made. *)
Definition probe (r : RSync) (hashLookup : gmap Z (list BlockHash)) (s : scan)
    : option (Z * bool) :=
  match hashLookup !! β s with
  | Some hh =>
      if negb (lastRun s) then
        match slice (buffer s) (tail (sum s)) (head (sum s)) with
        | None => None
        | Some v =>
            match uniqueHash r v with
            | None => None
            | Some hashValue => Some (findUniqueHash hh hashValue)
            end
        end
      else Some (0, false)
  | None => Some (0, false)
  end.

(** The pending-DATA flush, then the BLOCK operation or one more literal
    byte. *)
Definition emit (r : RSync) (s : scan) (blockIndex : Z) (foundHash : bool) : flow :=
  let flushed :=
    if dirty s && (foundHash || (head (data s) - tail (data s) >=? MaxDataOp r)
                   || lastRun s)
    then
      match slice (buffer s) (tail (data s)) (head (data s)) with
      | None => None
      | Some d => Some (ops s ++ [mkOp DATA 0 d], false, head (data s))
      end
    else Some (ops s, dirty s, tail (data s)) in
  match flushed with
  | None => Panic s
  | Some (ops', dirty', data_tail') =>
      if foundHash then
        let sum_tail' := tail (sum s) + BlockSize r in
        Continue (mkScan (mkSection (head (sum s)) sum_tail')
                         (mkSection sum_tail' (head (sum s)))
                         (validTo s) (prevValidTo s) (αPop s) (β s) (β1 s) (β2 s)
                         false dirty' (lastRun s) (buffer s) (unread s)
                         (ops' ++ [mkOp BLOCK blockIndex []]))
      else
        let popped :=
          if negb (lastRun s) then option_map byteZ (index (buffer s) (tail (sum s)))
          else Some (αPop s) in
        match popped with
        | None => Panic s
        | Some αPop' =>
            let sum_tail' := tail (sum s) + 1 in
            Continue (mkScan (mkSection data_tail' sum_tail')
                             (mkSection sum_tail' (head (sum s)))
                             (validTo s) (prevValidTo s) αPop' (β s) (β1 s) (β2 s)
                             (rolling s) true (lastRun s) (buffer s) (unread s) ops')
        end
  end.

(** The body of [for !lastRun] up to the probe: the window is in place and
    its weak hash is in [β]. *)
Definition advance (r : RSync) (s : scan) : flow :=
  bind (refill r s) (fun s => bind (wrapFlush s) (window r)).

(** The body of [for !lastRun]. *)
Definition iter (r : RSync) (hashLookup : gmap Z (list BlockHash)) (s : scan) : flow :=
  bind (advance r s) (fun s =>
  match probe r hashLookup s with
  | None => Panic s
  | Some (blockIndex, foundHash) => emit r s blockIndex foundHash
  end).

Fixpoint CreateDelta_loop (fuel : nat) (r : RSync) (hashLookup : gmap Z (list BlockHash))
    (s : scan) : scan * outcome :=
  match fuel with
  | O => (s, OutOfFuel)
  | S fuel =>
      if lastRun s then (s, Returned None)
      else
        match iter r hashLookup s with
        | Continue s' => CreateDelta_loop fuel r hashLookup s'
        | Break s' => (s', Returned None)
        | Fail s' e => (s', Returned (Some e))
        | Panic s' => (s', Panicked)
        end
  end.

Definition make (n : Z) : list byte := repeat x00 (Z.to_nat n).

(** The state on entry to the loop. *)
Definition scan0 (r : RSync) (source : Reader) : scan :=
  mkScan (mkSection 0 0) (mkSection 0 0) 0 0 0 0 0 0 false false false
         (make (BlockSize r * 3 + MaxDataOp r)) source [].

(** Rounds the loop cannot exceed: a round that reads takes a block off the
    source, and between two reads [sum.head] climbs to [validTo]. *)
Definition rounds (r : RSync) (source : Reader) : nat :=
  S (Z.to_nat (len (pending source) * (BlockSize r * 3 + MaxDataOp r + 1))).

(** [CreateDelta]: the configuration after the call, the source after it, the
    operations sent on [ops] before it was closed, and the outcome. *)
Definition CreateDelta (r : RSync) (source : Reader) (signature : list BlockHash)
    : RSync * Reader * list Operation * outcome :=
  let r := if BlockSize r <=? 0
           then mkRSync DefaultBlockSize (MaxDataOp r) (UniqueHasher r) else r in
  let r := if MaxDataOp r <=? 0
           then mkRSync (BlockSize r) DefaultMaxDataOp (UniqueHasher r) else r in
  let r := match UniqueHasher r with
           | None => mkRSync (BlockSize r) (MaxDataOp r) (Some md5)
           | Some _ => r
           end in
  let hashLookup := hashLookup_of signature in
  let '(s, res) := CreateDelta_loop (rounds r source) r hashLookup (scan0 r source) in
  (r, unread s, ops s, res).

End WithMD5.

(** A strong hasher to run the code with: the digest is the bytes written,
    behind a tag byte. *)
Definition tagHasher : Hasher := fun v => x01 :: v.

End RSync.

(** ** Go slices that are re-sliced past their length

    [buff[:k]] is legal up to the capacity of [buff], so a slice handed out by
    the single-buffer reader is kept with the array behind it: [base] runs
    from the first byte of the slice to the end of its capacity. *)
Record gslice := mkSlice {
  base : list byte;
  slen : Z
}.

Definition bytes_of (v : gslice) : list byte := firstn (Z.to_nat (slen v)) (base v).

(** [v[lo:]]. *)
Definition from (v : gslice) (lo : Z) : option gslice :=
  if (0 <=? lo) && (lo <=? slen v)
  then Some (mkSlice (skipn (Z.to_nat lo) (base v)) (slen v - lo))
  else None.

(** [v[:hi]]. *)
Definition upto (v : gslice) (hi : Z) : option gslice :=
  if (0 <=? hi) && (hi <=? len (base v)) then Some (mkSlice (base v) hi) else None.

(** What a panic carries. *)
Inductive panic : Type :=
| ErrNeedCap
| ErrUsedTooMuch
| ErrInvalidCall
| ErrBadVarintRead
| ErrHashTooLong (n : Z)
| ErrDataTooLong (n : Z)
| Unreachable
| RuntimeError.            (* index or slice bounds out of range *)

(** A call that returns, panics, or is cut by the model's fuel. *)
Inductive result (A : Type) : Type :=
| Ok (a : A)
| Panics (p : panic)
| Timeout.
Arguments Ok {A} a.
Arguments Panics {A} p.
Arguments Timeout {A}.

Definition rbind {A B} (m : result A) (k : A -> result B) : result B :=
  match m with
  | Ok a => k a
  | Panics p => Panics p
  | Timeout => Timeout
  end.

#[global] Instance result_bind : MBind result := fun A B k m => rbind m k.
#[global] Instance result_ret : MRet result := fun A a => Ok a.

Definition orPanic {A} (o : option A) : result A :=
  match o with
  | Some a => Ok a
  | None => Panics RuntimeError
  end.

Module SBuffer.

(** ** sbuffer.go *)

(** The embedded [io.Reader], as the reads it will answer: each entry is the
    bytes of one read and the error returned with them. A read into a slice
    too short for the entry takes what fits and leaves the rest for the next
    read. When the entries are used up the reader is at [EOF]. *)
Definition Upstream := list (list byte * option error).

Definition Read (u : Upstream) (cap : Z) : list byte * option error * Upstream :=
  match u with
  | [] => ([], Some EOF, [])
  | (d, e) :: u' =>
      if len d <=? cap then (d, e, u')
      else (firstn (Z.to_nat cap) d, None, (skipn (Z.to_nat cap) d, e) :: u')
  end.

Record buffer := mkBuffer {
  Reader : Upstream;
  backer : list byte;
  tail : Z;
  head : Z
}.

Definition NewBuffer (read : Upstream) (bufferSize : Z) : buffer :=
  mkBuffer read (repeat x00 (Z.to_nat bufferSize)) 0 0.

Definition min (a b : Z) : Z := if a <? b then a else b.

(** The [for b.tail+needed > b.head] loop of [Next]; [err] is the error of
    the last read. *)
Fixpoint Next_loop (fuel : nat) (b : buffer) (needed : Z) (err : option error)
    : result (buffer * option error) :=
  match fuel with
  | O => Timeout
  | S fuel =>
      if tail b + needed >? head b then
        _ ← orPanic (slice (backer b) (head b) (len (backer b)));
        let '(d, err, u) := Read (Reader b) (len (backer b) - head b) in
        let b := mkBuffer u (blit (backer b) (head b) d) (tail b) (head b + len d) in
        match err with
        | Some _ => Ok (b, err)
        | None => Next_loop fuel b needed err
        end
      else Ok (b, err)
  end.

(** Reads the loop of [Next] cannot exceed: a read empties an entry of the
    upstream or takes at least a byte of it. *)
Fixpoint reads (u : Upstream) : nat :=
  match u with
  | [] => 1
  | (d, _) :: u' => S (length d + reads u')
  end.

Definition Next (b : buffer) (needed : Z) : result (gslice * option error * buffer) :=
  if needed >? len (backer b) then Panics ErrNeedCap
  else
    b ← (if tail b + needed >? len (backer b) then
            block ← orPanic (slice (backer b) (tail b) (head b));
            Ok (mkBuffer (Reader b) (blit (backer b) 0 block) 0 (len block))
          else Ok b);
    '(b, err) ← Next_loop (S (reads (Reader b))) b needed None;
    let hi := min (tail b + needed) (head b) in
    _ ← orPanic (slice (backer b) (tail b) hi);
    Ok (mkSlice (skipn (Z.to_nat (tail b)) (backer b)) (hi - tail b), err, b).

Definition Used (b : buffer) (used : Z) : result buffer :=
  let b := mkBuffer (Reader b) (backer b) (tail b + used) (head b) in
  if tail b >? head b then Panics ErrUsedTooMuch else Ok b.

End SBuffer.

Module Proto.

Import SBuffer.

(** ** proto.go: the record codec *)

Definition Type_ := Z.
Definition TypeSignature : Type_ := 1.
Definition TypeDelta : Type_ := 2.
Definition TypePatch : Type_ := 3.

Definition maxHashLength : Z := 1024 * 6.
Definition maxDataLength : Z := 1024 * 1024.

(** Modelled from the spec: the operation type of the [rsync] package that
    [proto.go] is written against ([OpBlock], [OpBlockRange], [OpData],
    [OpHash], and the field [BlockIndexEnd]); the tags are the wire tags of
    the delta body, 0 BLOCK, 1 BLOCK_RANGE, 2 DATA, 3 HASH. *)
Definition OpType := Z.
Definition OpBlock : OpType := 0.
Definition OpBlockRange : OpType := 1.
Definition OpData : OpType := 2.
Definition OpHash : OpType := 3.

Record Operation := mkOperation {
  Type__ : OpType;
  BlockIndex : Z;
  BlockIndexEnd : Z;
  Data : list byte
}.

(** *** encoding/binary *)

(** [binary.PutUvarint(buf, x)]: the bytes it stores at the start of [buf];
    their number is what it returns. A [uint64] takes at most ten. *)
Fixpoint PutUvarint_loop (fuel : nat) (x : Z) : list byte :=
  match fuel with
  | O => [Zbyte x]
  | S fuel =>
      if x >=? 128 then Zbyte (Z.lor (x mod 256) 128) :: PutUvarint_loop fuel (Z.shiftr x 7)
      else [Zbyte x]
  end.

Definition PutUvarint (x : Z) : list byte := PutUvarint_loop 9 x.

(** [binary.Uvarint(buf)]: the value and the number of bytes read. *)
Fixpoint Uvarint_loop (buf : list byte) (i x s : Z) : Z * Z :=
  match buf with
  | [] => (0, 0)
  | b :: buf' =>
      if i =? 10 then (0, - (i + 1))
      else if byteZ b <? 128 then
        if (i =? 9) && (byteZ b >? 1) then (0, - (i + 1))
        else (Z.lor x (u64 (Z.shiftl (byteZ b) s)), i + 1)
      else Uvarint_loop buf' (i + 1) (Z.lor x (u64 (Z.shiftl (Z.land (byteZ b) 127) s))) (s + 7)
  end.

Definition Uvarint (buf : list byte) : Z * Z := Uvarint_loop buf 0 0 0.

(** [binary.BigEndian.PutUint32]. *)
Definition PutUint32 (v : Z) : list byte :=
  [Zbyte (Z.shiftr v 24); Zbyte (Z.shiftr v 16); Zbyte (Z.shiftr v 8); Zbyte v].

(** [binary.BigEndian.Uint32(b)]; fewer than four bytes is a panic. *)
Definition Uint32 (b : list byte) : option Z :=
  match b with
  | b0 :: b1 :: b2 :: b3 :: _ =>
      Some (Z.lor (Z.lor (Z.lor (byteZ b3) (Z.shiftl (byteZ b2) 8))
                         (Z.shiftl (byteZ b1) 16))
                  (Z.shiftl (byteZ b0) 24))
  | _ => None
  end.

(** *** Writer *)

Record Writer := mkWriter {
  t : Type_;
  body : RSync.Writer
}.

(** The function [SignatureWriter] returns, applied to a block: the body
    afterwards and the error. *)
Definition SignatureWriter_func (body : RSync.Writer) (block : RSync.BlockHash)
    : RSync.Writer * option error :=
  let buffer := RSync.make 2048 in
  let enc := PutUvarint (RSync.Index block) in
  let buffer := blit buffer 0 enc in
  let n := len enc in
  let buffer := blit buffer n (PutUint32 (RSync.WeakHash block)) in
  let n := n + 4 in
  let enc := PutUvarint (len (RSync.StrongHash block)) in
  let buffer := blit buffer n enc in
  let n := n + len enc in
  let '(body, err) := RSync.Write body (firstn (Z.to_nat n) buffer) in
  match err with
  | Some e => (body, Some e)
  | None =>
      let '(body, err) := RSync.Write body (RSync.StrongHash block) in
      match err with
      | Some e => (body, Some e)
      | None => (body, None)
      end
  end.

Definition SignatureWriter (w : Writer)
    : result (RSync.Writer -> RSync.BlockHash -> RSync.Writer * option error) :=
  if negb (t w =? TypeSignature) then Panics ErrInvalidCall
  else Ok SignatureWriter_func.

(** The function [OperationWriter] returns, applied to an operation. *)
Definition OperationWriter_func (body : RSync.Writer) (op : Operation)
    : result (RSync.Writer * option error) :=
  let buffer := RSync.make 2048 in
  let buffer := blit buffer 0 [Zbyte (Type__ op)] in
  let n := 1 in
  if Type__ op =? OpBlock then
    let enc := PutUvarint (BlockIndex op) in
    let buffer := blit buffer n enc in
    let n := n + len enc in
    Ok (RSync.Write body (firstn (Z.to_nat n) buffer))
  else if Type__ op =? OpBlockRange then
    let enc := PutUvarint (BlockIndex op) in
    let buffer := blit buffer n enc in
    let n := n + len enc in
    let enc := PutUvarint (BlockIndexEnd op) in
    let buffer := blit buffer n enc in
    let n := n + len enc in
    Ok (RSync.Write body (firstn (Z.to_nat n) buffer))
  else if (Type__ op =? OpHash) || (Type__ op =? OpData) then
    let enc := PutUvarint (len (Data op)) in
    let buffer := blit buffer n enc in
    let n := n + len enc in
    let '(body, err) := RSync.Write body (firstn (Z.to_nat n) buffer) in
    match err with
    | Some e => Ok (body, Some e)
    | None => Ok (RSync.Write body (Data op))
    end
  else Panics Unreachable.

Definition OperationWriter (w : Writer)
    : result (RSync.Writer -> Operation -> result (RSync.Writer * option error)) :=
  if negb (t w =? TypeDelta) then Panics ErrInvalidCall
  else Ok OperationWriter_func.

(** *** Reader *)

Record Reader := mkReader {
  rt : Type_;
  rbody : Upstream
}.

(** [if err != nil { if err != io.EOF { return ... }; loop = false }]: the
    error to return, or the new value of [loop]. *)
Definition eofStops (err : option error) (loop : bool) : error + bool :=
  match err with
  | None => inr loop
  | Some EOF => inr false
  | Some e => inl e
  end.

(** The [for loop] of [ReadAllSignatures], entered with [loop = true]. *)
Fixpoint ReadAllSignatures_loop (fuel : nat) (reader : buffer) (bb : list RSync.BlockHash)
    : result (list RSync.BlockHash * option error) :=
  match fuel with
  | O => Timeout
  | S fuel =>
      let leaveTail := 24 in
      '(buff, err, reader) ← Next reader leaveTail;
      match eofStops err true with
      | inl e => Ok ([], Some e)
      | inr loop =>
          if slen buff =? 0 then Ok (bb, None)
          else
            let '(v, n) := Uvarint (bytes_of buff) in
            if n <=? 0 then Panics ErrBadVarintRead
            else
              let at_ := n in
              let Index := v in
              rest ← orPanic (from buff at_);
              WeakHash ← orPanic (Uint32 (bytes_of rest));
              let at_ := at_ + 4 in
              rest ← orPanic (from buff at_);
              let '(v, n) := Uvarint (bytes_of rest) in
              if n <=? 0 then Panics ErrBadVarintRead
              else
                let at_ := at_ + n in
                let hashLen := i64 v in
                if hashLen >? maxHashLength then Panics (ErrHashTooLong hashLen)
                else
                  reader ← Used reader at_;
                  '(buff, err, reader) ← Next reader hashLen;
                  match eofStops err loop with
                  | inl e => Ok ([], Some e)
                  | inr loop =>
                      src ← orPanic (upto buff hashLen);
                      let StrongHash :=
                        blit (RSync.make hashLen) 0 (bytes_of src) in
                      reader ← Used reader hashLen;
                      let bb := bb ++ [RSync.mkBlockHash Index StrongHash WeakHash] in
                      if loop then ReadAllSignatures_loop fuel reader bb
                      else Ok (bb, None)
                  end
      end
  end.

(** Bytes the upstream will still deliver. *)
Definition upstreamBytes (u : Upstream) : nat :=
  length (concat (map fst u)).

Definition ReadAllSignatures (r : Reader) : result (list RSync.BlockHash * option error) :=
  if negb (rt r =? TypeSignature) then Panics ErrInvalidCall
  else
    let reader := NewBuffer (rbody r) (32 * 1024) in
    ReadAllSignatures_loop (S (upstreamBytes (rbody r))) reader [].

(** One operation read off [buff]: the operation, the reader, and [loop];
    [inl err] is [return err]. *)
Definition readOperation (reader : buffer) (buff : gslice) (loop : bool)
    : result (error + (Operation * buffer * bool)) :=
  ty ← orPanic (index (bytes_of buff) 0);
  let Type__ := byteZ ty in
  let at_ := 1 in
  if Type__ =? OpBlock then
    rest ← orPanic (from buff at_);
    let '(v, n) := Uvarint (bytes_of rest) in
    if n <=? 0 then Panics ErrBadVarintRead
    else
      let at_ := at_ + n in
      reader ← Used reader at_;
      Ok (inr (mkOperation Type__ v 0 [], reader, loop))
  else if Type__ =? OpBlockRange then
    rest ← orPanic (from buff at_);
    let '(v, n) := Uvarint (bytes_of rest) in
    if n <=? 0 then Panics ErrBadVarintRead
    else
      let at_ := at_ + n in
      let BlockIndex := v in
      rest ← orPanic (from buff at_);
      let '(v, n) := Uvarint (bytes_of rest) in
      if n <=? 0 then Panics ErrBadVarintRead
      else
        let at_ := at_ + n in
        reader ← Used reader at_;
        Ok (inr (mkOperation Type__ BlockIndex v [], reader, loop))
  else if (Type__ =? OpHash) || (Type__ =? OpData) then
    rest ← orPanic (from buff at_);
    let '(v, n) := Uvarint (bytes_of rest) in
    if n <=? 0 then Panics ErrBadVarintRead
    else
      let at_ := at_ + n in
      let dataLen := i64 v in
      if dataLen >? maxDataLength then Panics (ErrDataTooLong dataLen)
      else
        reader ← Used reader at_;
        '(buff, err, reader) ← Next reader dataLen;
        match eofStops err loop with
        | inl e => Ok (inl e)
        | inr loop =>
            src ← orPanic (upto buff dataLen);
            let Data := blit (RSync.make dataLen) 0 (bytes_of src) in
            reader ← Used reader dataLen;
            Ok (inr (mkOperation Type__ 0 0 Data, reader, loop))
        end
  else Panics Unreachable.

(** The [for loop] of [ReadOperations]; [ops] and [hashOps] are what was sent
    on the two channels. *)
Fixpoint ReadOperations_loop (fuel : nat) (reader : buffer) (ops hashOps : list Operation)
    : result (list Operation * list Operation * option error) :=
  match fuel with
  | O => Timeout
  | S fuel =>
      '(buff, err, reader) ← Next reader 10;
      if slen buff =? 0 then Ok (ops, hashOps, None)
      else
        match eofStops err true with
        | inl e => Ok (ops, hashOps, Some e)
        | inr loop =>
            got ← readOperation reader buff loop;
            match got : error + (Operation * buffer * bool) with
            | inl e => Ok (ops, hashOps, Some e)
            | inr (op, reader, loop) =>
                let '(ops, hashOps) :=
                  if Type__ op =? OpHash then (ops, hashOps ++ [op])
                  else (ops ++ [op], hashOps) in
                if loop then ReadOperations_loop fuel reader ops hashOps
                else Ok (ops, hashOps, None)
            end
        end
  end.

Definition ReadOperations (r : Reader)
    : result (list Operation * list Operation * option error) :=
  if negb (rt r =? TypeDelta) then Panics ErrInvalidCall
  else
    let reader := NewBuffer (rbody r) (32 * 1024) in
    ReadOperations_loop (S (upstreamBytes (rbody r))) reader [] [].

End Proto.

(** * Specification-side definitions *)

Module WeakHashSpec.
(** The two sums of the checksum, over the integers. *)
Fixpoint sumA (v : list byte) : Z :=
  match v with
  | [] => 0
  | x :: v' => byteZ x + sumA v'
  end.

Fixpoint sumB (v : list byte) : Z :=
  match v with
  | [] => 0
  | x :: v' => (len v' + 1) * byteZ x + sumB v'
  end.

(** Equality of [uint32] values: congruence modulo [2^32]. *)
Definition cong32 (a b : Z) : Prop := a mod 2 ^ 32 = b mod 2 ^ 32.
End WeakHashSpec.


Module DeltaSpec.
Import RSync.

(** The entries of a signature with weak hash [k], in signature order. *)
Definition bucket (k : Z) (signature : list BlockHash) : list BlockHash :=
  List.filter (fun h => WeakHash h =? k) signature.

(** An entry agrees with a window on the weak hash and the strong hash. *)
Definition agrees (k : Z) (hashValue : list byte) (e : BlockHash) : Prop :=
  WeakHash e = k /\ StrongHash e = hashValue.

(** A signature knows a block: it has an entry with the weak hash and, for
    the hasher [h], the strong hash of the block. *)
Definition knows (h : Hasher) (signature : list BlockHash) (v : list byte) : Prop :=
  exists e, In e signature /\ agrees (βhash v).1.1 (h v) e.

(** Block [j] of a byte sequence cut into blocks of [bs] bytes. *)
Definition blockAt (bs : Z) (v : list byte) (j : Z) : list byte :=
  firstn (Z.to_nat bs) (skipn (Z.to_nat (j * bs)) v).

(** The state at the head of the loop when every block read so far was
    matched: all cursors stand at [p], nothing is pending, and the hash is to
    be seeded. *)
Definition matchedUpTo (p pv : Z) (hashes : Z * Z * Z * Z) (buf : list byte)
    (pend : list byte) (sentOps : list Operation) : scan :=
  let '(a, b, b1, b2) := hashes in
  mkScan (mkSection p p) (mkSection p p) p pv a b b1 b2 false false false
         buf (mkReader pend EOF) sentOps.

(** What bounds the rounds left to the loop: the blocks still to be read, and
    between two reads the distance of [sum.head] to [validTo]. [cap] is the
    length of the buffer. *)
Definition remaining (cap : Z) (s : scan) : Z :=
  len (pending (unread s)) * (cap + 1) + Z.max 0 (validTo s - head (sum s)).

(** What holds of the cursors at the head of the loop. *)
Definition steady (bs cap : Z) (s : scan) : Prop :=
  0 <= validTo s <= cap /\ 0 <= tail (sum s) /\ head (sum s) < tail (sum s) + bs /\
  len (buffer s) = cap.

(** The operations a round of the loop sent: those of [s'] past those of [s]. *)
Definition sent (s s' : scan) : list Operation :=
  skipn (length (ops s)) (ops s').

End DeltaSpec.

Module SBufferSpec.
Import SBuffer.

(** The cursors of a buffer are in order and inside the backing array. *)
Definition wf (b : buffer) : Prop :=
  0 <= tail b /\ tail b <= head b /\ head b <= len (backer b).

(** The bytes read and not yet used: [[tail, head)]. *)
Definition held (b : buffer) : list byte :=
  firstn (Z.to_nat (head b - tail b)) (skipn (Z.to_nat (tail b)) (backer b)).

(** [[tail, head)] moved to the front of the array. *)
Definition compact (b : buffer) : buffer :=
  mkBuffer (Reader b) (blit (backer b) 0 (held b)) 0 (head b - tail b).

(** "Read from the upstream until [head - tail >= needed] or the upstream
    ends": with [have] bytes held and [room] bytes free behind them, the reads
    deliver [got] and leave the upstream at [u']; [err] is the error of the
    read that ended the upstream, if one did. *)
Inductive fills (needed : Z) : Z -> Z -> Upstream -> list byte -> option error -> Upstream -> Prop :=
| fills_enough have room u :
    needed <= have ->
    fills needed have room u [] None u
| fills_ends have room u d e u' :
    have < needed ->
    Read u room = (d, Some e, u') ->
    fills needed have room u d (Some e) u'
| fills_more have room u d u1 d' err u' :
    have < needed ->
    Read u room = (d, None, u1) ->
    fills needed (have + len d) (room - len d) u1 d' err u' ->
    fills needed have room u (d ++ d') err u'.

(** The bytes an upstream will still deliver, and the bytes a buffer will
    still hand out: those it holds, then those of its upstream. *)
Definition rest (u : Upstream) : list byte := concat (map fst u).

Definition stream (b : buffer) : list byte := held b ++ rest (Reader b).

(** An upstream none of whose reads fails: it ends with the [EOF] of the read
    after the last. *)
Definition clean (u : Upstream) : Prop := Forall (fun x => snd x = None) u.

End SBufferSpec.

Module SignatureSpec.
Import RSync DeltaSpec.

(** The record of block [j] of a basis cut into blocks of [bs] bytes, for the
    strong hasher [h]. *)
Definition recordAt (h : Hasher) (bs : Z) (basis : list byte) (j : Z) : BlockHash :=
  mkBlockHash j (h (blockAt bs basis j)) (βhash (blockAt bs basis j)).1.1.

(** A callback fed the records of a list in order, up to its first error. *)
Fixpoint feed {St} (sw : SignatureWriter St) (st : St) (l : list BlockHash)
    : St * option error :=
  match l with
  | [] => (st, None)
  | b :: l' =>
      match sw st b with
      | (st', Some e) => (st', Some e)
      | (st', None) => feed sw st' l'
      end
  end.

(** What an operation makes [ApplyDelta] write: a BLOCK the block of the
    basis, a DATA its payload, any other nothing. *)
Definition opBytes (bs : Z) (basis : list byte) (op : Operation) : list byte :=
  if Type_ op =? BLOCK then blockAt bs basis (BlockIndex op)
  else if Type_ op =? DATA then Data op
  else [].

(** What every operation [CreateDelta] sends looks like: a BLOCK names an
    entry of the signature with a strong hash, a DATA holds at most [cap]
    bytes. *)
Definition sound (signature : list BlockHash) (cap : Z) (op : Operation) : Prop :=
  (Type_ op = BLOCK /\ Data op = [] /\
   exists e, In e signature /\ Index e = BlockIndex op /\ StrongHash e <> [])
  \/ (Type_ op = DATA /\ BlockIndex op = 0 /\ len (Data op) <= cap).

(** The state a part of the loop body ends in. *)
Definition stateOf (f : flow) : scan :=
  match f with
  | Continue s | Break s | Fail s _ | Panic s => s
  end.

(** The errors with which a source simply ends. *)
Definition natural (e : error) : Prop := e = EOF \/ e = ErrUnexpectedEOF.

(** An entry of the signature carries the strong hash of a window shorter
    than a block, as the entry of a partial last block does. *)
Definition shortMatch (r : RSync) (signature : list BlockHash) : Prop :=
  exists e v, In e signature /\ len v < BlockSize r /\ uniqueHash r v = Some (StrongHash e).

(** What holds of the cursors at the head of the loop of [CreateDelta] while
    the source has not ended. The pending data is [[data.tail, data.head)]
    with [data.head = sum.tail], or, after the buffer wrapped,
    [[data.tail, prevValidTo)]. [sum.tail] is past [validTo] only after a
    window shorter than a block was matched. *)
Definition safe (r : RSync) (signature : list BlockHash) (s : scan) : Prop :=
  let cap := BlockSize r * 3 + MaxDataOp r in
  (0 <= validTo s <= cap /\ len (buffer s) = cap) /\
  (head (data s) = tail (sum s) /\ 0 <= tail (sum s) /\ head (sum s) <= validTo s) /\
  (tail (sum s) <= head (sum s) \/
   (head (sum s) = validTo s /\ tail (sum s) < validTo s + BlockSize r /\
    rolling s = false /\ dirty s = false /\ shortMatch r signature)) /\
  ((0 <= tail (data s) <= tail (sum s) /\ tail (data s) <= validTo s) \/
   (tail (sum s) < tail (data s) /\ tail (data s) <= prevValidTo s <= cap /\
    validTo s + BlockSize r <= cap)).

(** What holds once the block is read and the wrapped data is flushed, before
    the window is hashed. *)
Definition primed (r : RSync) (signature : list BlockHash) (s : scan) : Prop :=
  let cap := BlockSize r * 3 + MaxDataOp r in
  let lim x := (x <= tail (sum s) + 1 /\ x <= validTo s)
               \/ (x <= prevValidTo s <= cap /\ validTo s + BlockSize r <= cap) in
  len (buffer s) = cap /\ 0 <= tail (sum s) /\ 1 <= validTo s <= cap /\
  0 <= tail (data s) <= head (data s) /\
  if lastRun s then
    pending (unread s) = [] /\ dirty s = true /\ head (data s) = validTo s /\
    (tail (sum s) <= validTo s \/ (rolling s = false /\ shortMatch r signature))
  else
    tail (sum s) < validTo s /\ lim (tail (data s)) /\
    (dirty s = true -> lim (head (data s)) /\ head (data s) <= cap).

(** What holds of the buffer and of the operations sent at every point of
    the loop of [CreateDelta]. *)
Definition tidy (signature : list BlockHash) (cap : Z) (s : scan) : Prop :=
  len (buffer s) = cap /\ Forall (sound signature cap) (ops s).

End SignatureSpec.

Module Session.
Import RSync.

(** The bytes of a string literal. *)
Definition bytes (s : String.string) : list byte := String.list_byte_of_string s.

(** One synchronisation with one [RSync] value, as in the README: the
    receiver signs [basis], the sender diffs [source] against the signature,
    the receiver patches [basis]. *)
Definition signature (md5 : Hasher) (r : RSync) (basis : list byte)
    : RSync * list BlockHash * outcome :=
  let '(r, _, sig, res) := CreateSignature md5 r (mkReader basis EOF) collect [] in
  (r, sig, res).

Definition delta (md5 : Hasher) (r : RSync) (source : list byte) (sig : list BlockHash)
    : RSync * list Operation * outcome :=
  let '(r, _, ops, res) := CreateDelta md5 r (mkReader source EOF) sig in
  (r, ops, res).

Definition patch (r : RSync) (basis : list byte) (ops : list Operation)
    : list byte * option error :=
  let '(_, out, _, err) := ApplyDelta r (mkWriter [] None) (mkReadSeeker basis 0 EOF) ops in
  (written out, err).

Definition roundtrip (md5 : Hasher) (r : RSync) (basis source : list byte)
    : list byte * (outcome * outcome * option error) :=
  let '(r, sig, res1) := signature md5 r basis in
  let '(r, ops, res2) := delta md5 r source sig in
  let '(out, err) := patch r basis ops in
  (out, (res1, res2, err)).

End Session.

Module Wire.
Import Proto.

(** Every record written through the function [SignatureWriter] returns, to
    an empty body that accepts any number of bytes. *)
Definition writeSignatures (sig : list RSync.BlockHash) : list byte :=
  RSync.written
    (fold_left (fun body block => fst (SignatureWriter_func body block)) sig
               (RSync.mkWriter [] None)).

(** Every operation written through the function [OperationWriter]
    returns. *)
Definition writeOperations (ops : list Operation) : result (list byte) :=
  body ← fold_left (fun acc op => body ← acc; '(body, _) ← OperationWriter_func body op; Ok body)
                   ops (Ok (RSync.mkWriter [] None));
  Ok (RSync.written body).

(** A body that hands over all its bytes at the first read and reports [EOF]
    at the next, as a file or a [bytes.Reader] does. *)
Definition wholeBody (wire : list byte) : SBuffer.Upstream := [(wire, None)].

End Wire.

Module Sample.
Import RSync Session.
Local Open Scope string_scope.

(** A configuration with every field set, the signature of ["AAAA"] under it,
    and the first round of [CreateDelta] on the source ["AAAA"]. *)
Definition config : RSync := mkRSync 4 8 (Some tagHasher).

Definition sig : list BlockHash := (signature tagHasher config (bytes "AAAA")).1.2.





(** A buffer of eight bytes on an upstream that answers one read of three
    bytes. *)
Definition smallBuffer : SBuffer.buffer :=
  SBuffer.NewBuffer [(bytes "abc", None)] 8.

End Sample.

(** * The weak hash *)


Section WeakHash.
Import RSync WeakHashSpec.

#[local] Instance cong32_equiv : Equivalence cong32.
Proof. split; unfold cong32; congruence. Qed.

#[local] Instance cong32_add : Proper (cong32 ==> cong32 ==> cong32) Z.add.
Proof. intros a a' Ha b b' Hb. unfold cong32 in *. now rewrite Z.add_mod, Ha, Hb, <- Z.add_mod. Qed.

#[local] Instance cong32_sub : Proper (cong32 ==> cong32 ==> cong32) Z.sub.
Proof. intros a a' Ha b b' Hb. unfold cong32 in *. now rewrite Zminus_mod, Ha, Hb, <- Zminus_mod. Qed.

#[local] Instance cong32_mul : Proper (cong32 ==> cong32 ==> cong32) Z.mul.
Proof. intros a a' Ha b b' Hb. unfold cong32 in *. now rewrite Z.mul_mod, Ha, Hb, <- Z.mul_mod. Qed.

Lemma u32_cong x : cong32 (u32 x) x.
Proof. unfold cong32, u32. apply Z.mod_mod. discriminate. Qed.

Lemma M_divides : (_M | 2 ^ 32).
Proof. exists (2 ^ 16). reflexivity. Qed.

Lemma cong32_mod_M a b : cong32 a b -> a mod _M = b mod _M.
Proof.
  unfold cong32. intros H.
  rewrite <- (Z.mod_mod_divide a (2 ^ 32) _M), <- (Z.mod_mod_divide b (2 ^ 32) _M)
    by apply M_divides.
  now rewrite H.
Qed.

Lemma βloop_sums v : forall n i a b,
  n = len v + i ->
  cong32 (fst (βloop n i v a b)) (a + sumA v) /\ cong32 (snd (βloop n i v a b)) (b + sumB v).
Proof.
  induction v as [|x v IH]; intros n i a b Hn; simpl.
  - split; rewrite Z.add_0_r; reflexivity.
  - destruct (IH n (i + 1) (u32 (a + byteZ x))
               (u32 (b + u32 (u32 (u32 (u32 (n - 1) - u32 i) + 1) * byteZ x)))) as [Ha Hb].
    { unfold len in *. simpl length in Hn. lia. }
    split.
    + rewrite Ha, u32_cong. rewrite Z.add_assoc. reflexivity.
    + rewrite Hb. rewrite !u32_cong.
      replace (n - 1 - i + 1) with (len v + 1) by (unfold len in *; simpl length in Hn; lia).
      rewrite Z.add_assoc. reflexivity.
Qed.

Lemma βhash_sums v :
  βhash v = (u32 (sumA v mod _M + u32 (_M * (sumB v mod _M))), sumA v mod _M, sumB v mod _M).
Proof.
  unfold βhash. destruct (βloop_sums v (len v) 0 0 0 ltac:(lia)) as [Ha Hb].
  destruct (βloop (len v) 0 v 0 0) as [a b]. simpl in Ha, Hb.
  rewrite (cong32_mod_M _ _ Ha), (cong32_mod_M _ _ Hb). reflexivity.
Qed.



End WeakHash.

(** * The probe of the signature *)

Section Probe.
Import RSync DeltaSpec.

Lemma bytes_Equal_eq a : forall b, bytes_Equal a b = true <-> a = b.
Proof.
  induction a as [|x a IH]; destruct b as [|y b]; simpl; try (split; congruence).
  rewrite andb_true_iff, IH. split.
  - intros [Hxy ->]. apply Byte.byte_dec_bl in Hxy. now subst.
  - intros [= -> ->]. split; [apply Byte.byte_dec_lb|]; reflexivity.
Qed.

Lemma hashLookup_fold (signature : list BlockHash) : forall (m : gmap Z (list BlockHash)) k,
  default [] (fold_left (fun hashLookup h =>
                           <[WeakHash h := default [] (hashLookup !! WeakHash h) ++ [h]]> hashLookup)
                        signature m !! k)
  = default [] (m !! k) ++ bucket k signature.
Proof.
  induction signature as [|h sg IH]; intros m k; simpl.
  - now rewrite app_nil_r.
  - rewrite IH. destruct (Z.eqb_spec (WeakHash h) k) as [->|Hne].
    + rewrite lookup_insert_eq. simpl. now rewrite <- app_assoc.
    + now rewrite lookup_insert_ne.
Qed.

Lemma hashLookup_of_bucket signature k hh :
  hashLookup_of signature !! k = Some hh -> hh = bucket k signature.
Proof.
  intros H. pose proof (hashLookup_fold signature ∅ k) as E.
  unfold hashLookup_of in H. rewrite H in E. now rewrite lookup_empty in E.
Qed.

Lemma hashLookup_of_present signature k :
  bucket k signature <> [] -> hashLookup_of signature !! k = Some (bucket k signature).
Proof.
  intros Hne. pose proof (hashLookup_fold signature ∅ k) as E.
  unfold hashLookup_of. rewrite lookup_empty in E. simpl in E.
  destruct (fold_left _ signature ∅ !! k) as [hh|]; simpl in E; congruence.
Qed.








End Probe.

(** * The applier and the configuration *)

Section Apply.
Import RSync.

Variable md5 : Hasher.

Lemma i64_small x : 0 <= x < 2 ^ 63 -> i64 x = x.
Proof. intros H. unfold i64. rewrite Z.mod_small; lia. Qed.


Lemma len_nonneg {A} (l : list A) : 0 <= len l.
Proof. unfold len. lia. Qed.

Lemma len_firstn {A} n (l : list A) : 0 <= n -> len (firstn (Z.to_nat n) l) = Z.min n (len l).
Proof. intros H. unfold len. rewrite length_firstn. lia. Qed.


(** C10. An operation whose type is neither BLOCK nor DATA is skipped:
    [ApplyDelta] writes nothing for it, leaves the basis where it was, returns
    no error, and goes on with the operations that follow. *)
Theorem apply_skips_unknown r alignedTarget target op ops :
  Type_ op <> BLOCK -> Type_ op <> DATA ->
  ApplyDelta_op r alignedTarget target op = (alignedTarget, target, None)
  /\ ApplyDelta r alignedTarget target (op :: ops) = ApplyDelta r alignedTarget target ops.
Proof.
  intros Hb Hd.
  assert (E : ApplyDelta_op r alignedTarget target op = (alignedTarget, target, None)).
  { unfold ApplyDelta_op.
    destruct (Z.eqb_spec (Type_ op) BLOCK); [contradiction|].
    destruct (Z.eqb_spec (Type_ op) DATA); [contradiction|]. reflexivity. }
  split; [exact E|].
  unfold ApplyDelta.
  destruct (BlockSize r <=? 0); simpl; unfold ApplyDelta_op; simpl;
    destruct (Z.eqb_spec (Type_ op) BLOCK); try contradiction;
    destruct (Z.eqb_spec (Type_ op) DATA); try contradiction; reflexivity.
Qed.

(** The configuration after each of the three calls. *)
Lemma CreateSignature_config {St} r target (sw : SignatureWriter St) st :
  (CreateSignature md5 r target sw st).1.1.1
  = mkRSync (if BlockSize r <=? 0 then DefaultBlockSize else BlockSize r)
            (MaxDataOp r)
            (Some (default md5 (UniqueHasher r))).
Proof.
  unfold CreateSignature.
  destruct (CreateSignature_loop _ _ _ _ _ _) as [[? ?] ?]. simpl.
  destruct r as [bs mdo [h|]]; simpl; destruct (bs <=? 0); reflexivity.
Qed.

Lemma CreateDelta_config r source signature :
  (CreateDelta md5 r source signature).1.1.1
  = mkRSync (if BlockSize r <=? 0 then DefaultBlockSize else BlockSize r)
            (if MaxDataOp r <=? 0 then DefaultMaxDataOp else MaxDataOp r)
            (Some (default md5 (UniqueHasher r))).
Proof.
  unfold CreateDelta.
  destruct (CreateDelta_loop _ _ _ _) as [? ?]. simpl.
  destruct r as [bs mdo [h|]]; simpl; destruct (bs <=? 0); simpl; destruct (mdo <=? 0); reflexivity.
Qed.

Lemma ApplyDelta_config r alignedTarget target ops :
  (ApplyDelta r alignedTarget target ops).1.1.1
  = mkRSync (if BlockSize r <=? 0 then DefaultBlockSize else BlockSize r)
            (MaxDataOp r) (UniqueHasher r).
Proof.
  unfold ApplyDelta.
  destruct (ApplyDelta_loop _ _ _ _) as [[? ?] ?]. simpl.
  destruct r as [bs mdo h]; simpl; destruct (bs <=? 0); reflexivity.
Qed.

(** C8, amended. A configuration whose [BlockSize] and [MaxDataOp] are
    positive and whose [UniqueHasher] is not nil comes out of
    [CreateSignature], [CreateDelta] and [ApplyDelta] with the three fields as
    they were. *)
Theorem config_kept_when_set {St} r h target (sw : SignatureWriter St) st source signature
    alignedTarget basis ops :
  0 < BlockSize r -> 0 < MaxDataOp r -> UniqueHasher r = Some h ->
  (CreateSignature md5 r target sw st).1.1.1 = r
  /\ (CreateDelta md5 r source signature).1.1.1 = r
  /\ (ApplyDelta r alignedTarget basis ops).1.1.1 = r.
Proof.
  intros Hbs Hmdo Hh.
  rewrite CreateSignature_config, CreateDelta_config, ApplyDelta_config.
  destruct r as [bs mdo uh]; simpl in *. subst uh. simpl.
  destruct (Z.leb_spec bs 0); [lia|]. destruct (Z.leb_spec mdo 0); [lia|]. auto.
Qed.

End Apply.

(** C8 as stated fails: the zero configuration of the README, [&rsync.RSync{}],
    comes out of [CreateSignature] with [BlockSize] 65536 and a hasher. *)
Lemma config_filled_by_call :
  let r := RSync.mkRSync 0 0 None in
  let r' := (RSync.CreateSignature RSync.tagHasher r (RSync.mkReader [] EOF) RSync.collect []).1.1.1 in
  RSync.BlockSize r' <> RSync.BlockSize r /\ RSync.UniqueHasher r' <> RSync.UniqueHasher r.
Proof. vm_compute. split; discriminate. Qed.

(** * The single-buffer reader *)

Section Lists.
Context {A : Type}.
Implicit Types (v src : list A).

Lemma len_app v w : len (v ++ w) = len v + len w.
Proof. unfold len. rewrite length_app. lia. Qed.

Lemma len_blit v at_ src :
  0 <= at_ -> at_ + len src <= len v -> len (blit v at_ src) = len v.
Proof.
  unfold blit, len. intros H0 H1.
  rewrite !length_app, length_firstn, length_skipn. lia.
Qed.

Lemma blit_nil v at_ : blit v at_ [] = v.
Proof. unfold blit. simpl. rewrite Nat.add_0_r. apply firstn_skipn. Qed.

Lemma blit_blit v at_ src src' :
  0 <= at_ -> at_ + len src <= len v ->
  blit (blit v at_ src) (at_ + len src) src' = blit v at_ (src ++ src').
Proof.
  unfold blit, len. intros H0 H1.
  replace (Z.to_nat (at_ + Z.of_nat (length src))) with (Z.to_nat at_ + length src)%nat by lia.
  set (n := Z.to_nat at_). assert (Hn : (n + length src <= length v)%nat) by lia.
  assert (Hl : length (firstn n v ++ src) = (n + length src)%nat).
  { rewrite length_app, length_firstn. lia. }
  rewrite (app_assoc (firstn n v) src).
  rewrite take_app_length' by (symmetry; exact Hl).
  rewrite drop_app_add' by (symmetry; exact Hl).
  rewrite skipn_skipn, length_app. rewrite <- !app_assoc. do 2 f_equal.
  replace (length src' + (n + length src))%nat with (n + (length src + length src'))%nat by lia.
  reflexivity.
Qed.

(** What [[lo, hi)] holds after a copy at [hi]. *)
Lemma held_blit v lo hi src :
  0 <= lo -> lo <= hi -> hi + len src <= len v ->
  firstn (Z.to_nat (hi + len src - lo)) (skipn (Z.to_nat lo) (blit v hi src))
  = firstn (Z.to_nat (hi - lo)) (skipn (Z.to_nat lo) v) ++ src.
Proof.
  unfold blit, len. intros H0 H1 H2.
  set (n := Z.to_nat lo). set (m := Z.to_nat hi).
  assert (Hnm : (n <= m)%nat) by lia. assert (Hm : (m + length src <= length v)%nat) by lia.
  replace (Z.to_nat (hi + Z.of_nat (length src) - lo)) with ((m - n) + length src)%nat by lia.
  replace (Z.to_nat (hi - lo)) with (m - n)%nat by lia.
  rewrite <- skipn_firstn_comm.
  rewrite drop_app_le by (rewrite length_firstn; lia).
  rewrite (app_assoc _ src).
  apply take_app_length'. rewrite length_app, length_skipn, length_firstn. lia.
Qed.

Lemma slice_ok v lo hi :
  0 <= lo -> lo <= hi -> hi <= len v ->
  slice v lo hi = Some (firstn (Z.to_nat (hi - lo)) (skipn (Z.to_nat lo) v)).
Proof.
  intros H0 H1 H2. unfold slice.
  destruct (Z.leb_spec 0 lo); [|lia]. destruct (Z.leb_spec lo hi); [|lia].
  destruct (Z.leb_spec hi (len v)); [|lia]. reflexivity.
Qed.

End Lists.

Ltac len_lia := unfold len in *; simpl length in *; lia.

Section SBufferFacts.
Import SBuffer SBufferSpec.

(** The loop of [Next] with fuel for every read the upstream can answer. *)
Lemma Next_loop_fills needed : forall fuel b,
  wf b -> tail b + needed <= len (backer b) ->
  (reads (Reader b) < fuel)%nat ->
  exists got err u',
    fills needed (head b - tail b) (len (backer b) - head b) (Reader b) got err u' /\
    head b + len got <= len (backer b) /\
    Next_loop fuel b needed None
    = Ok (mkBuffer u' (blit (backer b) (head b) got) (tail b) (head b + len got), err).
Proof.
  induction fuel as [|fuel IH]; intros b Hwf Hfit Hfuel; [lia|].
  destruct Hwf as (Ht & Hth & Hh). simpl.
  destruct (Z.gtb_spec (tail b + needed) (head b)) as [Hgt|Hle].
  2:{ exists [], None, (Reader b). split; [constructor; lia|]. split; [len_lia|].
      rewrite blit_nil. replace (head b + len []) with (head b) by len_lia. now destruct b. }
  rewrite slice_ok by lia. simpl.
  destruct (Reader b) as [|[d e] u] eqn:Hu.
  - exists [], (Some EOF), []. split; [apply fills_ends; [lia|reflexivity]|].
    split; [len_lia|]. simpl.
    rewrite blit_nil. replace (head b + len []) with (head b) by len_lia. reflexivity.
  - simpl in Hfuel. unfold Read.
    destruct (Z.leb_spec (len d) (len (backer b) - head b)) as [Hd|Hd].
    + destruct e as [e|].
      * exists d, (Some e), u. split.
        { apply fills_ends; [lia|]. unfold Read.
          destruct (Z.leb_spec (len d) (len (backer b) - head b)); [reflexivity|lia]. }
        split; [lia|reflexivity].
      * destruct (IH (mkBuffer u (blit (backer b) (head b) d) (tail b) (head b + len d)))
          as (got & err & u' & Hfill & Hroom & Hrun).
        { unfold wf. simpl. rewrite len_blit by lia. pose proof (len_nonneg d). lia. }
        { simpl. rewrite len_blit by lia. lia. }
        { simpl. lia. }
        simpl in *. rewrite len_blit in * by lia.
        exists (d ++ got), err, u'. split.
        { eapply fills_more; [lia| |].
          - unfold Read. destruct (Z.leb_spec (len d) (len (backer b) - head b)); [reflexivity|lia].
          - replace (head b + len d - tail b) with (head b - tail b + len d) in Hfill by lia.
            replace (len (backer b) - (head b + len d)) with (len (backer b) - head b - len d)
              in Hfill by lia.
            exact Hfill. }
        rewrite len_app. split; [lia|].
        rewrite Hrun, blit_blit by lia. now rewrite Z.add_assoc.
    + set (room := len (backer b) - head b) in *.
      assert (Hroom : 0 < room) by (unfold room; lia).
      assert (Hlen : len (firstn (Z.to_nat room) d) = room).
      { rewrite len_firstn by lia. lia. }
      destruct (IH (mkBuffer ((skipn (Z.to_nat room) d, e) :: u)
                             (blit (backer b) (head b) (firstn (Z.to_nat room) d))
                             (tail b) (head b + len (firstn (Z.to_nat room) d))))
        as (got & err & u' & Hfill & Hfit' & Hrun).
      { unfold wf. simpl. rewrite len_blit by (unfold room in *; lia). unfold room in *. lia. }
      { simpl. rewrite len_blit by (unfold room in *; lia). lia. }
      { simpl. rewrite length_skipn. unfold len in Hd. lia. }
      simpl in *. rewrite len_blit in * by (unfold room in *; lia).
      exists (firstn (Z.to_nat room) d ++ got), err, u'. split.
      { eapply fills_more; [lia| |].
        - unfold Read. fold room. destruct (Z.leb_spec (len d) room); [lia|reflexivity].
        - replace (head b + len (firstn (Z.to_nat room) d) - tail b)
            with (head b - tail b + len (firstn (Z.to_nat room) d)) in Hfill by lia.
          replace (len (backer b) - (head b + len (firstn (Z.to_nat room) d)))
            with (room - len (firstn (Z.to_nat room) d)) in Hfill by (unfold room; lia).
          exact Hfill. }
      rewrite len_app. split; [lia|].
      rewrite Hrun, blit_blit by (unfold room in *; lia). now rewrite Z.add_assoc.
Qed.

Lemma len_held b : wf b -> len (held b) = head b - tail b.
Proof.
  intros (Ht & Hth & Hh). unfold held. rewrite len_firstn by lia.
  unfold len in *. rewrite length_skipn. lia.
Qed.

Lemma held_compact b : wf b -> held (compact b) = held b /\ wf (compact b)
  /\ len (backer (compact b)) = len (backer b).
Proof.
  intros Hwf. pose proof (len_held b Hwf) as Hl. destruct Hwf as (Ht & Hth & Hh).
  assert (Hlen : len (blit (backer b) 0 (held b)) = len (backer b)) by (apply len_blit; lia).
  split; [|split]; [| unfold wf, compact; simpl; lia | exact Hlen].
  unfold held at 1, compact. simpl. rewrite Z.sub_0_r. unfold blit. simpl.
  rewrite <- Hl. unfold len. rewrite Nat2Z.id. apply take_app_length.
Qed.

(** C9. On a buffer whose cursors are in order, asked for [needed >= 0]
    bytes: [Next] panics exactly when [needed] exceeds the capacity; otherwise
    it first moves [[tail, head)] to the front when [tail + needed] exceeds
    the capacity, then reads from the upstream until [head - tail >= needed]
    or the upstream ends, and returns [[tail, min(tail+needed, head))], the
    first [needed] of the bytes held, with the error of the upstream. [Used]
    panics exactly when [used > head - tail] and otherwise advances [tail]. *)
Theorem buffer_contract b needed used :
  wf b -> 0 <= needed ->
  (needed > len (backer b) -> Next b needed = Panics ErrNeedCap) /\
  (needed <= len (backer b) ->
   let b0 := if tail b + needed >? len (backer b) then compact b else b in
   held b0 = held b /\
   exists got err u',
     fills needed (head b0 - tail b0) (len (backer b0) - head b0) (Reader b) got err u' /\
     let b' := mkBuffer u' (blit (backer b0) (head b0) got) (tail b0) (head b0 + len got) in
     let hi := min (tail b' + needed) (head b') in
     let out := mkSlice (skipn (Z.to_nat (tail b')) (backer b')) (hi - tail b') in
     Next b needed = Ok (out, err, b') /\
     slice (backer b') (tail b') hi = Some (bytes_of out) /\
     bytes_of out = firstn (Z.to_nat needed) (held b ++ got) /\
     held b' = held b ++ got /\
     (err = None -> needed <= head b' - tail b') /\
     wf b') /\
  (used > head b - tail b -> Used b used = Panics ErrUsedTooMuch) /\
  (used <= head b - tail b ->
   Used b used = Ok (mkBuffer (Reader b) (backer b) (tail b + used) (head b))).
Proof.
  intros Hwf Hn. split; [|split; [|split]].
  - intros Hgt. unfold Next. destruct (Z.gtb_spec needed (len (backer b))); [reflexivity|lia].
  - intros Hle b0.
    assert (Hb0 : held b0 = held b /\ wf b0 /\ len (backer b0) = len (backer b)
                  /\ tail b0 + needed <= len (backer b0) /\ Reader b0 = Reader b).
    { subst b0. destruct (Z.gtb_spec (tail b + needed) (len (backer b))).
      - destruct (held_compact b Hwf) as (? & ? & Hl). rewrite Hl. simpl.
        split; [assumption|]. split; [assumption|]. split; [reflexivity|]. split; [lia|reflexivity].
      - split; [reflexivity|]. split; [assumption|]. split; [reflexivity|].
        split; [lia|reflexivity]. }
    destruct Hb0 as (Hheld & Hwf0 & Hlen0 & Hfit0 & Hrd0). split; [exact Hheld|].
    destruct (Next_loop_fills needed (S (reads (Reader b0))) b0 Hwf0 Hfit0 ltac:(lia))
      as (got & err & u' & Hfill & Hroom & Hrun).
    exists got, err, u'. rewrite <- Hrd0. split; [exact Hfill|].
    cbv zeta.
    set (b' := mkBuffer u' (blit (backer b0) (head b0) got) (tail b0) (head b0 + len got)).
    set (hi := min (tail b' + needed) (head b')).
    set (out := mkSlice (skipn (Z.to_nat (tail b')) (backer b')) (hi - tail b')).
    assert (Hlen' : len (backer b') = len (backer b0)).
    { subst b'. simpl. destruct Hwf0 as (? & ? & ?). apply len_blit; lia. }
    assert (Hwf' : wf b').
    { destruct Hwf0 as (? & ? & ?). pose proof (len_nonneg got).
      unfold wf. rewrite Hlen'. subst b'. simpl. lia. }
    assert (Hheld' : held b' = held b ++ got).
    { rewrite <- Hheld. unfold held. subst b'. simpl.
      replace (head b0 + len got - tail b0) with (head b0 + len got - tail b0) by lia.
      destruct Hwf0 as (? & ? & ?). apply held_blit; lia. }
    assert (Hhi : tail b' <= hi /\ hi <= head b' /\ hi - tail b' = Z.min needed (head b' - tail b')).
    { destruct Hwf' as (? & ? & ?). subst hi. unfold min.
      destruct (Z.ltb_spec (tail b' + needed) (head b')); lia. }
    assert (Hout : bytes_of out = firstn (Z.to_nat needed) (held b ++ got)).
    { rewrite <- Hheld'. unfold bytes_of, out, held. cbn [slen base].
      destruct Hhi as (_ & _ & ->). destruct Hwf' as (? & ? & ?).
      rewrite take_take. f_equal. lia. }
    split; [|split; [|split; [|split; [|split]]]]; auto.
    + unfold Next. destruct (Z.gtb_spec needed (len (backer b))) as [|_]; [lia|].
      assert (Hpre : (if tail b + needed >? len (backer b)
                      then block ← orPanic (slice (backer b) (tail b) (head b));
                           Ok (mkBuffer (Reader b) (blit (backer b) 0 block) 0 (len block))
                      else Ok b) = Ok b0).
      { subst b0. destruct (tail b + needed >? len (backer b)); [|reflexivity].
        destruct Hwf as (? & ? & ?). rewrite slice_ok by lia. simpl.
        fold (held b). unfold compact. now rewrite len_held by (unfold wf; lia). }
      rewrite Hpre. cbn [mbind result_bind rbind]. rewrite Hrun. cbn [mbind result_bind rbind].
      fold b'. fold hi. destruct Hwf' as (? & ? & ?).
      rewrite slice_ok by lia. reflexivity.
    + destruct Hwf' as (? & ? & ?). rewrite slice_ok by lia.
      unfold bytes_of, out. simpl. reflexivity.
    + intros ->. clear -Hfill Hwf0 Hn. subst b'. simpl.
      assert (G : forall have room u got e u', fills needed have room u got e u' ->
                  e = None -> needed <= have + len got).
      { clear. induction 1; intros E; try discriminate.
        - len_lia.
        - rewrite len_app. specialize (IHfills E). lia. }
      specialize (G _ _ _ _ _ _ Hfill eq_refl). lia.
  - intros Hgt. unfold Used. simpl. destruct (Z.gtb_spec (tail b + used) (head b)); [reflexivity|lia].
  - intros Hle. unfold Used. simpl. destruct (Z.gtb_spec (tail b + used) (head b)); [lia|reflexivity].
Qed.

End SBufferFacts.

(** * The code on concrete inputs *)

Section Cases.
Import RSync Session.
Local Open Scope string_scope.

(** C1. With [block_size] 5, basis ["HELLO"] and source ["HELLO WORL"], the
    three calls return without error and the output is ["HELLO"]: the second
    block of the source is read in full, is not matched, and the read that
    follows meets [EOF] with no byte, where the loop is left before the
    pending bytes are sent. The same happens with an empty basis, whatever the
    strong hasher. With [block_size] 4, basis ["WXYZQ"] and source
    ["abcWXYZQr"], [CreateDelta] panics: after the one-byte window ["Q"] is
    matched, [sum.tail] stands past [validTo] and the next window is
    [buffer[11:9]]. *)
Theorem roundtrip_drops_unmatched_last_block :
  roundtrip tagHasher (mkRSync 5 0 None) (bytes "HELLO") (bytes "HELLO WORL")
  = (bytes "HELLO", (Returned None, Returned None, None))
  /\ (forall md5 h,
        roundtrip md5 (mkRSync 2 0 h) [] (bytes "AB")
        = ([], (Returned None, Returned None, None)))
  /\ roundtrip tagHasher (mkRSync 4 0 None) (bytes "WXYZQ") (bytes "abcWXYZQr")
     = (bytes "abcWXYZQ", (Returned None, Panicked, None)).
Proof.
  split; [vm_compute; reflexivity|]. split; [|vm_compute; reflexivity].
  intros md5 [h|]; vm_compute; reflexivity.
Qed.

(** C3. With [block_size] 2 and [max_data_op] 2, the source ["ABC"] and an
    empty signature, the one operation sent is a DATA of three bytes; with
    [max_data_op] 20, ten times the block size, a source of 21 bytes is sent
    as one DATA of 21 bytes. *)
Theorem data_longer_than_MaxDataOp :
  delta tagHasher (mkRSync 2 2 None) (bytes "ABC") []
  = (mkRSync 2 2 (Some tagHasher), [mkOp DATA 0 (bytes "ABC")], Returned None)
  /\ delta tagHasher (mkRSync 2 20 None) (bytes "0123456789abcdefghijk") []
     = (mkRSync 2 20 (Some tagHasher), [mkOp DATA 0 (bytes "0123456789abcdefghijk")],
        Returned None).
Proof. split; vm_compute; reflexivity. Qed.

End Cases.

Section WireCases.
Import Proto Wire.

(** C7. Two BLOCK operations written through [OperationWriter] take four
    bytes; [ReadOperations] sends the first on [ops] and returns. Two
    signature records with strong hashes of four bytes take twenty bytes;
    [ReadAllSignatures] returns the first. In both the read that asks for more
    bytes than remain meets [EOF], [loop] is cleared, and the records still in
    the buffer are not decoded. *)
Theorem decode_stops_at_first_short_read :
  let ops := [mkOperation OpBlock 0 0 []; mkOperation OpBlock 1 0 []] in
  let sig := [RSync.mkBlockHash 0 [x0a; x0b; x0c; x0d] 7;
              RSync.mkBlockHash 1 [x1a; x1b; x1c; x1d] 9] in
  (exists wire, writeOperations ops = Ok wire /\ len wire = 4 /\
     ReadOperations (mkReader TypeDelta (wholeBody wire))
     = Ok ([mkOperation OpBlock 0 0 []], [], None))
  /\ len (writeSignatures sig) = 20
  /\ ReadAllSignatures (mkReader TypeSignature (wholeBody (writeSignatures sig)))
     = Ok ([RSync.mkBlockHash 0 [x0a; x0b; x0c; x0d] 7], None).
Proof.
  cbv zeta. split; [|split]; [|vm_compute; reflexivity..].
  eexists. split; [vm_compute; reflexivity|]. split; vm_compute; reflexivity.
Qed.

End WireCases.

(** * A basis diffed against its own signature *)

Section Buffers.
Import RSync.

Lemma slice_blit_same (buf : list byte) q d :
  0 <= q -> q + len d <= len buf -> slice (blit buf q d) q (q + len d) = Some d.
Proof.
  intros Hq Hfit. pose proof (len_nonneg d).
  rewrite slice_ok by (rewrite ?len_blit; lia). f_equal.
  unfold blit. rewrite drop_app_length' by (rewrite length_firstn; unfold len in *; lia).
  replace (q + len d - q) with (len d) by lia. unfold len. rewrite Nat2Z.id.
  apply take_app_length.
Qed.

Lemma slice_empty (buf : list byte) p : 0 <= p -> p <= len buf -> slice buf p p = Some [].
Proof. intros. rewrite slice_ok by lia. now rewrite Z.sub_diag. Qed.

Lemma len_make n : 0 <= n -> len (make n) = n.
Proof. intros Hn. unfold len, make. rewrite repeat_length. lia. Qed.

End Buffers.

Section SelfCopy.
Import RSync DeltaSpec Session.

Variable md5 : Hasher.
Variable h : Hasher.
Variables bs mdo : Z.
Hypothesis bs_pos : 0 < bs.
Hypothesis mdo_pos : 0 < mdo.
Hypothesis digest_nonempty : forall v, h v <> [].

#[local] Arguments βhash : simpl never.
#[local] Arguments ReadAtLeast : simpl never.
#[local] Arguments blit : simpl never.
#[local] Arguments slice : simpl never.

#[local] Abbreviation r := (mkRSync bs mdo (Some h)).
#[local] Abbreviation L := (bs * 3 + mdo).

Lemma blockAt_skip v j :
  0 <= j -> blockAt bs (skipn (Z.to_nat bs) v) j = blockAt bs v (j + 1).
Proof.
  intros Hj. unfold blockAt. rewrite skipn_skipn. do 2 f_equal. nia.
Qed.

Lemma knows_mono sig sig' v : incl sig sig' -> knows h sig v -> knows h sig' v.
Proof. intros Hi (e & He & Ha). exists e. split; [apply Hi, He|exact Ha]. Qed.

(** [CreateSignature] reads the basis to its end and leaves an entry for every
    full block. *)
Lemma CreateSignature_loop_covers : forall fuel pend st idx,
  (length pend < fuel)%nat ->
  exists entries rd,
    CreateSignature_loop fuel r (mkReader pend EOF) collect st idx
    = (rd, st ++ entries, Returned None) /\
    forall j, 0 <= j -> (j + 1) * bs <= len pend -> knows h entries (blockAt bs pend j).
Proof.
  induction fuel as [|fuel IH]; intros pend st idx Hfuel; [lia|].
  simpl. unfold ReadAtLeast. simpl.
  destruct (Z.leb_spec bs (len pend)) as [Hle|Hlt].
  - set (block := firstn (Z.to_nat bs) pend).
    set (e0 := mkBlockHash idx (h block) (βhash block).1.1).
    destruct (IH (skipn (Z.to_nat bs) pend) (st ++ [e0]) (u64 (idx + 1)))
      as (entries & rd & Hrun & Hcov).
    { rewrite length_skipn. unfold len in Hle. lia. }
    exists (e0 :: entries), rd. split.
    { subst e0. destruct (βhash block) as [[weak b1] b2]. simpl in *.
      rewrite Hrun. now rewrite <- app_assoc. }
    intros j Hj Hfit. destruct (Z.eq_dec j 0) as [->|Hne].
    + exists e0. split; [now left|]. unfold blockAt. simpl. fold block.
      split; reflexivity.
    + apply knows_mono with entries; [apply incl_tl, incl_refl|].
      replace j with ((j - 1) + 1) by lia. rewrite <- blockAt_skip by lia.
      apply Hcov; [lia|]. unfold len in *. rewrite length_skipn. nia.
  - destruct (Z.eqb_spec (len pend) 0) as [H0|H0].
    + exists [], (mkReader [] EOF). split; [now rewrite app_nil_r|]. intros j Hj Hfit. nia.
    + destruct (βhash pend) as [[weak b1] b2]. simpl.
      eexists [_], _. split; [reflexivity|]. intros j Hj Hfit. nia.
Qed.

Lemma find_known sig v :
  knows h sig v ->
  exists i, findUniqueHash (bucket (βhash v).1.1 sig) (h v) = (i, true)
            /\ hashLookup_of sig !! (βhash v).1.1 = Some (bucket (βhash v).1.1 sig).
Proof.
  intros (e & He & Hw & Hs).
  assert (Hf : exists i, findUniqueHash_loop (bucket (βhash v).1.1 sig) (h v) = (i, true)
                         /\ bucket (βhash v).1.1 sig <> []).
  { induction sig as [|x sig IH]; [contradiction|]. simpl.
    destruct (Z.eqb_spec (WeakHash x) (βhash v).1.1) as [Hx|Hx]; simpl.
    - destruct (bytes_Equal (StrongHash x) (h v)) eqn:Hxs; [eexists; split; [reflexivity|discriminate]|].
      destruct He as [->|He].
      + apply bytes_Equal_eq in Hs. congruence.
      + destruct (IH He) as (i & Hi & _). exists i. split; [exact Hi|discriminate].
    - destruct He as [->|He]; [contradiction|]. exact (IH He). }
  destruct Hf as (i & Hi & Hne). exists i. split.
  - unfold findUniqueHash. destruct (Z.eqb_spec (len (h v)) 0) as [H0|_]; [|exact Hi].
    exfalso. apply (digest_nonempty v). destruct (h v); [reflexivity|len_lia].
  - apply hashLookup_of_present, Hne.
Qed.

Lemma ReadAtLeast_full blk rest :
  len blk = bs -> ReadAtLeast (mkReader (blk ++ rest) EOF) bs = (blk, None, mkReader rest EOF).
Proof.
  intros Hl. unfold ReadAtLeast. simpl. rewrite len_app.
  pose proof (len_nonneg rest).
  destruct (Z.leb_spec bs (len blk + len rest)); [|lia].
  rewrite <- Hl. unfold len. rewrite Nat2Z.id, take_app_length, drop_app_length. reflexivity.
Qed.

Lemma ReadAtLeast_short t :
  len t < bs ->
  ReadAtLeast (mkReader t EOF) bs
  = (t, Some (if len t =? 0 then EOF else ErrUnexpectedEOF), mkReader [] EOF).
Proof.
  intros Hl. unfold ReadAtLeast. simpl. destruct (Z.leb_spec bs (len t)); [lia|reflexivity].
Qed.

(** A round that reads a block the signature knows sends its BLOCK and leaves
    every cursor behind the block. *)
Lemma iter_matched p pv hs buf blk rest sentOps sig :
  0 <= p <= L -> len buf = L -> len blk = bs -> knows h sig blk ->
  exists q pv' hs' i,
    iter r (hashLookup_of sig) (matchedUpTo p pv hs buf (blk ++ rest) sentOps)
    = Continue (matchedUpTo (q + bs) pv' hs' (blit buf q blk) rest
                            (sentOps ++ [mkOp BLOCK i []]))
    /\ 0 <= q /\ q + bs <= L.
Proof.
  intros Hp Hbuf Hblk Hk. destruct hs as [[[a b] b1] b2].
  destruct (find_known sig blk Hk) as (i & Hfind & Hlook).
  set (q := if p + bs >? L then 0 else p).
  assert (Hq : 0 <= q /\ q + bs <= L).
  { subst q. destruct (Z.gtb_spec (p + bs) (bs * 3 + mdo)); lia. }
  exists q, (if p + bs >? L then p else pv), (a, (βhash blk).1.1, (βhash blk).1.2, (βhash blk).2), i.
  split; [|exact Hq].
  unfold iter, advance, refill, matchedUpTo. simpl.
  destruct (Z.geb_spec p p) as [_|]; [|lia].
  rewrite Hbuf. fold q.
  rewrite slice_ok by lia.
  rewrite ReadAtLeast_full by exact Hblk. rewrite Hblk.
  destruct (Z.eqb_spec bs 0); [lia|]. simpl.
  unfold wrapFlush. simpl.
  destruct (Z.gtb_spec p p); [lia|]. simpl.
  unfold window. simpl.
  replace (min (q + bs) (q + bs)) with (q + bs) by (unfold min; now destruct (q + bs <? q + bs)).
  assert (Hs : slice (blit buf q blk) q (q + bs) = Some blk).
  { clear -Hblk Hq Hbuf. rewrite <- Hblk in *. apply slice_blit_same; lia. }
  rewrite Hs. simpl.
  destruct (βhash blk) as [[β' β1'] β2'] eqn:Hβ. simpl in *.
  unfold probe. simpl. rewrite Hlook, Hs. simpl. rewrite Hfind.
  unfold emit. simpl. reflexivity.
Qed.

(** The round that finds the source drained leaves the loop and sends
    nothing. *)
Lemma iter_drained p pv hs buf sentOps sig :
  0 <= p <= L -> len buf = L ->
  exists s', iter r (hashLookup_of sig) (matchedUpTo p pv hs buf [] sentOps) = Break s'
             /\ ops s' = sentOps.
Proof.
  intros Hp Hbuf. destruct hs as [[[a b] b1] b2].
  set (q := if p + bs >? L then 0 else p).
  assert (Hq : 0 <= q /\ q + bs <= L).
  { subst q. destruct (Z.gtb_spec (p + bs) (bs * 3 + mdo)); lia. }
  unfold iter, advance, refill, matchedUpTo. simpl.
  destruct (Z.geb_spec p p) as [_|]; [|lia].
  rewrite Hbuf. fold q. rewrite slice_ok by lia.
  rewrite ReadAtLeast_short by (unfold len; simpl; lia). simpl.
  eexists. split; reflexivity.
Qed.

(** The round that reads the partial block at the end of the source sends it
    as DATA and is the last. *)
Lemma iter_partial p pv hs buf t sentOps sig :
  0 <= p <= L -> len buf = L -> 0 < len t < bs ->
  exists s' tailOps,
    iter r (hashLookup_of sig) (matchedUpTo p pv hs buf t sentOps) = Continue s'
    /\ lastRun s' = true /\ ops s' = sentOps ++ tailOps
    /\ Forall (fun op => Type_ op = DATA) tailOps
    /\ concat (map Data tailOps) = t.
Proof.
  intros Hp Hbuf Ht. destruct hs as [[[a b] b1] b2].
  set (q := if p + bs >? L then 0 else p).
  assert (Hq : 0 <= q /\ q + bs <= L /\ (q = p \/ (q = 0 /\ p > len t))).
  { subst q. destruct (Z.gtb_spec (p + bs) (bs * 3 + mdo)); lia. }
  assert (Hs : forall lo, lo = q -> slice (blit buf q t) lo (q + len t) = Some t).
  { intros lo ->. apply slice_blit_same; lia. }
  unfold iter, advance, refill, matchedUpTo. simpl.
  destruct (Z.geb_spec p p) as [_|]; [|lia].
  rewrite Hbuf. fold q. rewrite slice_ok by lia.
  rewrite ReadAtLeast_short by lia.
  destruct (Z.eqb_spec (len t) 0) as [|_]; [lia|]. simpl.
  unfold wrapFlush. simpl.
  assert (Hlen : len (blit buf q t) = L) by (rewrite len_blit; lia).
  assert (Hmin : min (q + bs) (q + len t) = q + len t).
  { unfold min. destruct (Z.ltb_spec (q + bs) (q + len t)); lia. }
  destruct (Z.gtb_spec p (q + len t)) as [Hwrap|Hno].
  - assert (q = 0) as Hq0 by lia.
    replace (slice (blit buf q t) p (if p + bs >? L then p else pv)) with (Some (@nil byte)).
    2:{ symmetry. destruct (Z.gtb_spec (p + bs) L); [|lia]. apply slice_empty; lia. }
    simpl. unfold window. simpl. rewrite Hmin, Hs by reflexivity. simpl.
    destruct (βhash t) as [[β' β1'] β2']. simpl.
    unfold probe. simpl.
    assert (Hp' : match hashLookup_of sig !! β' with
                  | Some _ => Some (0, false)
                  | None => Some (0, false)
                  end = Some (0, false)) by (now destruct (hashLookup_of sig !! β')).
    rewrite Hp'. unfold emit. simpl. rewrite orb_true_r. rewrite Hs by lia. simpl.
    eexists _, [mkOp DATA 0 []; mkOp DATA 0 t]. split; [reflexivity|]. simpl.
    split; [reflexivity|]. split; [now rewrite <- app_assoc|].
    split; [repeat constructor|now rewrite app_nil_r].
  - assert (q = p) as Hqp by lia.
    simpl. unfold window. simpl. rewrite Hmin, Hs by reflexivity. simpl.
    destruct (βhash t) as [[β' β1'] β2']. simpl.
    unfold probe. simpl.
    assert (Hp' : match hashLookup_of sig !! β' with
                  | Some _ => Some (0, false)
                  | None => Some (0, false)
                  end = Some (0, false)) by (now destruct (hashLookup_of sig !! β')).
    rewrite Hp'. unfold emit. simpl. rewrite orb_true_r. rewrite Hs by lia. simpl.
    eexists _, [mkOp DATA 0 t]. split; [reflexivity|]. simpl.
    split; [reflexivity|]. split; [reflexivity|].
    split; [repeat constructor|now rewrite app_nil_r].
Qed.

(** The loop from a state in which everything read was matched, on a source
    whose full blocks the signature knows. *)
Lemma loop_selfcopy sig : forall fuel pend p pv hs buf sentOps,
  0 <= p <= L -> len buf = L ->
  (forall j, 0 <= j -> (j + 1) * bs <= len pend -> knows h sig (blockAt bs pend j)) ->
  (length pend < fuel)%nat -> (pend <> [] -> (2 <= fuel)%nat) ->
  exists s' idx tailOps,
    CreateDelta_loop fuel r (hashLookup_of sig) (matchedUpTo p pv hs buf pend sentOps)
    = (s', Returned None)
    /\ ops s' = sentOps ++ map (fun i => mkOp BLOCK i []) idx ++ tailOps
    /\ Forall (fun op => Type_ op = DATA) tailOps
    /\ concat (map Data tailOps) = skipn (Z.to_nat (len idx * bs)) pend
    /\ len idx * bs <= len pend < len idx * bs + bs
    /\ (len pend = len idx * bs -> tailOps = []).
Proof.
  induction fuel as [|fuel IH]; intros pend p pv hs buf sentOps Hp Hbuf Hcov Hfuel Hfuel2; [lia|].
  assert (Hlast : lastRun (matchedUpTo p pv hs buf pend sentOps) = false).
  { now destruct hs as [[[? ?] ?] ?]. }
  cbn [CreateDelta_loop]. rewrite Hlast.
  destruct (Z.le_gt_cases bs (len pend)) as [Hfull|Hshort].
  - set (blk := firstn (Z.to_nat bs) pend). set (rest := skipn (Z.to_nat bs) pend).
    assert (Hpend : pend = blk ++ rest) by (symmetry; apply firstn_skipn).
    assert (Hblk : len blk = bs) by (subst blk; rewrite len_firstn; lia).
    assert (Hrest : len pend = bs + len rest) by (rewrite Hpend, len_app; lia).
    assert (Hk : knows h sig blk).
    { specialize (Hcov 0 ltac:(lia) ltac:(lia)). exact Hcov. }
    destruct (iter_matched p pv hs buf blk rest sentOps sig Hp Hbuf Hblk Hk)
      as (q & pv' & hs' & i & Hiter & Hq0 & Hq1).
    assert (Hcov' : forall j, 0 <= j -> (j + 1) * bs <= len rest ->
                               knows h sig (blockAt bs rest j)).
    { intros j Hj Hfit. subst rest. rewrite blockAt_skip by lia. apply Hcov; lia. }
    assert (Hskip : forall n, skipn n rest = skipn (Z.to_nat bs + n) pend).
    { intros n. subst rest. rewrite skipn_skipn. f_equal. lia. }
    clearbody blk rest. clear Hcov. subst pend. rewrite Hiter.
    destruct (IH rest (q + bs) pv' hs' (blit buf q blk) (sentOps ++ [mkOp BLOCK i []]))
      as (s' & idx & tailOps & Hrun & Hops & Hdata & Hcat & Hlen & Hnil).
    { lia. }
    { rewrite len_blit; lia. }
    { exact Hcov'. }
    { rewrite length_app in Hfuel. unfold len in *. lia. }
    { intros Hne. assert (0 < len rest) by (destruct rest; [congruence|len_lia]).
      rewrite length_app in Hfuel. unfold len in *. lia. }
    exists s', (i :: idx), tailOps. rewrite Hrun.
    assert (Hidx : len (i :: idx) = len idx + 1) by len_lia.
    rewrite Hidx. split; [reflexivity|]. split; [rewrite Hops, <- app_assoc; reflexivity|].
    split; [exact Hdata|]. split; [|split; [lia|intros; apply Hnil; lia]].
    rewrite Hcat, Hskip. f_equal. pose proof (len_nonneg idx). nia.
  - destruct (Z.eq_dec (len pend) 0) as [H0|H0].
    + assert (pend = []) as -> by (destruct pend; [reflexivity|len_lia]).
      destruct (iter_drained p pv hs buf sentOps sig Hp Hbuf) as (s' & Hiter & Hops).
      rewrite Hiter. exists s', [], []. split; [reflexivity|]. rewrite Hops.
      split; [now rewrite app_nil_r|]. split; [constructor|]. split; [reflexivity|].
      split; [len_lia|reflexivity].
    + pose proof (len_nonneg pend).
      destruct (iter_partial p pv hs buf pend sentOps sig Hp Hbuf ltac:(lia))
        as (s' & tailOps & Hiter & Hlr & Hops & Hdata & Hcat).
      rewrite Hiter.
      assert (2 <= S fuel)%nat as Hf by (apply Hfuel2; intros ->; len_lia).
      destruct fuel as [|fuel]; [lia|]. cbn [CreateDelta_loop]. rewrite Hlr.
      exists s', [], tailOps. split; [reflexivity|]. split; [exact Hops|].
      split; [exact Hdata|]. split; [exact Hcat|]. split; [len_lia|len_lia].
Qed.

(** C2, amended. For a strong hasher whose digests are never empty,
    [CreateDelta] on a basis and the signature [CreateSignature] made of it
    sends one BLOCK operation for each full block of the basis and then, when
    the length of the basis is not a multiple of [BlockSize], the rest of the
    basis as DATA; it sends BLOCK operations only exactly when [BlockSize]
    divides the length. *)
Theorem self_copy_blocks_then_tail basis :
  exists sig idx tailOps,
    signature md5 r basis = (r, sig, Returned None)
    /\ delta md5 r basis sig = (r, map (fun i => mkOp BLOCK i []) idx ++ tailOps, Returned None)
    /\ len idx = len basis / bs
    /\ Forall (fun op => Type_ op = DATA) tailOps
    /\ concat (map Data tailOps) = skipn (Z.to_nat (bs * (len basis / bs))) basis
    /\ (tailOps = [] <-> len basis mod bs = 0).
Proof.
  destruct (CreateSignature_loop_covers (S (length basis)) basis [] 0 ltac:(lia))
    as (sig & rd & Hsig & Hcov).
  simpl app in Hsig.
  assert (HL : 0 <= L) by lia.
  destruct (loop_selfcopy sig (rounds r (mkReader basis EOF)) basis 0 0 (0, 0, 0, 0)
              (make L) []) as (s' & idx & tailOps & Hrun & Hops & Hdata & Hcat & Hlen & Hnil).
  { lia. }
  { apply len_make, HL. }
  { exact Hcov. }
  { unfold rounds. simpl. unfold len. nia. }
  { intros Hne. unfold rounds. simpl.
    assert (0 < len basis) by (destruct basis; [congruence|len_lia]). nia. }
  assert (Hdiv : len idx = len basis / bs).
  { apply (Z.div_unique_pos _ _ _ (len basis - len idx * bs)); lia. }
  exists sig, idx, tailOps. split; [|split; [|split; [|split; [|split]]]].
  - unfold signature, CreateSignature.
    cbn [BlockSize MaxDataOp UniqueHasher pending].
    destruct (Z.leb_spec bs 0); [lia|]. cbn [BlockSize MaxDataOp UniqueHasher pending].
    rewrite Hsig. reflexivity.
  - unfold delta, CreateDelta.
    cbn [BlockSize MaxDataOp UniqueHasher pending].
    destruct (Z.leb_spec bs 0); [lia|]. cbn [BlockSize MaxDataOp UniqueHasher pending].
    destruct (Z.leb_spec mdo 0); [lia|]. cbn [BlockSize MaxDataOp UniqueHasher pending].
    change (scan0 (mkRSync bs mdo (Some h)) (mkReader basis EOF))
      with (matchedUpTo 0 0 (0, 0, 0, 0) (make L) basis []).
    rewrite Hrun, Hops. reflexivity.
  - exact Hdiv.
  - exact Hdata.
  - rewrite Hcat. do 2 f_equal. lia.
  - split.
    + intros ->. simpl in Hcat. symmetry in Hcat. apply drop_nil_inv in Hcat.
      assert (len basis = len idx * bs) as E by (unfold len in *; lia).
      rewrite E. apply Z.mod_mul. lia.
    + intros Hmod. apply Hnil. rewrite Hdiv.
      pose proof (Z.div_mod (len basis) bs ltac:(lia)). lia.
Qed.

End SelfCopy.

Section SelfCopyCase.
Local Open Scope string_scope.

(** C2 as stated fails on its own example: for ["AAAABB"] and [block_size]
    4 the operations are [BLOCK(0)] and a DATA of the last two bytes. *)
Lemma self_copy_short_tail_is_data :
  let r := RSync.mkRSync 4 0 (Some RSync.tagHasher) in
  let basis := Session.bytes "AAAABB" in
  let '(r, sig, _) := Session.signature RSync.tagHasher r basis in
  let '(_, ops, _) := Session.delta RSync.tagHasher r basis sig in
  ops = [RSync.mkOp RSync.BLOCK 0 []; RSync.mkOp RSync.DATA 0 (Session.bytes "BB")]
  /\ ~ Forall (fun op => RSync.Type_ op = RSync.BLOCK) ops.
Proof.
  vm_compute. split; [reflexivity|]. intros H. inversion H as [|? ? _ H']. subst.
  inversion H' as [|? ? Hd _]. discriminate Hd.
Qed.

End SelfCopyCase.

(** * The loops return *)

Section Total.
Import RSync DeltaSpec.

#[local] Arguments βhash : simpl never.
#[local] Arguments ReadAtLeast : simpl never.
#[local] Arguments blit : simpl never.
#[local] Arguments slice : simpl never.
#[local] Arguments index : simpl never.
#[local] Arguments roll : simpl never.

Variable md5 : Hasher.

Lemma ReadAtLeast_takes rd bs got err rd' :
  0 < bs -> ReadAtLeast rd bs = (got, err, rd') ->
  len got <= bs /\ len (pending rd') + len got = len (pending rd) /\
  (err = None -> len got = bs).
Proof.
  intros Hbs. unfold ReadAtLeast.
  destruct (Z.leb_spec bs (len (pending rd))) as [Hle|Hlt]; intros [= <- <- <-]; simpl.
  - rewrite len_firstn by lia. unfold len in *. rewrite length_skipn. lia.
  - split; [lia|]. split; [len_lia|discriminate].
Qed.

(** [CreateSignature] returns: the fuel of the model is never used up. *)
Lemma CreateSignature_loop_returns {St} r (sw : SignatureWriter St) : forall fuel target st idx,
  0 < BlockSize r -> (length (pending target) < fuel)%nat ->
  (CreateSignature_loop fuel r target sw st idx).2 <> OutOfFuel.
Proof.
  induction fuel as [|fuel IH]; intros target st idx Hbs Hfuel; [lia|].
  simpl. destruct (ReadAtLeast target (BlockSize r)) as [[block err] target'] eqn:Hread.
  destruct (ReadAtLeast_takes _ _ _ _ _ Hbs Hread) as (Hgot & Hrest & Hfull).
  destruct (βhash block) as [[weak ?] ?].
  destruct err as [[| |c]|]; simpl; try discriminate.
  - destruct (uniqueHash r block); [|discriminate].
    destruct (sw st _) as [st' [e|]]; discriminate.
  - destruct (uniqueHash r block); [|discriminate].
    destruct (sw st _) as [st' [e|]]; [discriminate|].
    apply IH; [exact Hbs|]. specialize (Hfull eq_refl). unfold len in *. lia.
Qed.

Theorem CreateSignature_returns {St} r target (sw : SignatureWriter St) st :
  (CreateSignature md5 r target sw st).2 <> OutOfFuel.
Proof.
  unfold CreateSignature.
  set (r1 := if BlockSize r <=? 0 then _ else r).
  set (r2 := match UniqueHasher r1 with None => _ | Some _ => r1 end).
  assert (Hbs : 0 < BlockSize r2).
  { subst r2 r1. destruct (Z.leb_spec (BlockSize r) 0); destruct r as [? ? [?|]]; simpl in *;
      unfold DefaultBlockSize; lia. }
  pose proof (CreateSignature_loop_returns r2 sw (S (length (pending target))) target st 0
                Hbs ltac:(lia)) as H.
  destruct (CreateSignature_loop _ _ _ _ _ _) as [[? ?] ?]. exact H.
Qed.

Lemma wrapFlush_frame s s1 :
  wrapFlush s = Continue s1 ->
  sum s1 = sum s /\ validTo s1 = validTo s /\ unread s1 = unread s /\
  buffer s1 = buffer s /\ lastRun s1 = lastRun s.
Proof.
  unfold wrapFlush. destruct (tail (data s) >? head (data s)).
  - destruct (slice _ _ _); [|discriminate]. intros [= <-]. simpl. auto.
  - intros [= <-]. auto.
Qed.

Lemma window_frame r s s1 :
  window r s = Continue s1 ->
  tail (sum s1) = tail (sum s) /\
  head (sum s1) = min (tail (sum s) + BlockSize r) (validTo s) /\
  validTo s1 = validTo s /\ unread s1 = unread s /\
  buffer s1 = buffer s /\ lastRun s1 = lastRun s.
Proof.
  unfold window. destruct (negb (rolling s)).
  - destruct (slice _ _ _) as [v|]; [|discriminate]. intros [= <-].
    destruct (βhash v) as [[? ?] ?]. simpl. auto 8.
  - destruct (index _ _) as [b|]; [|discriminate]. intros [= <-].
    simpl. auto 8.
Qed.

Lemma emit_frame r s blockIndex foundHash s1 :
  emit r s blockIndex foundHash = Continue s1 ->
  head (sum s1) = head (sum s) /\
  (tail (sum s1) = tail (sum s) + BlockSize r \/ tail (sum s1) = tail (sum s) + 1) /\
  validTo s1 = validTo s /\ unread s1 = unread s /\
  buffer s1 = buffer s /\ lastRun s1 = lastRun s.
Proof.
  unfold emit.
  destruct (if dirty s && _ then _ else _) as [[[ops' dirty'] data_tail']|]; [|discriminate].
  destruct foundHash.
  - intros [= <-]. simpl. auto 8.
  - destruct (if negb (lastRun s) then _ else _); [|discriminate].
    intros [= <-]. simpl. auto 8.
Qed.

(** What a read leaves: either none was due, or the block read sits below
    [validTo], which stays inside the buffer. *)
Lemma refill_frame r s s1 :
  0 < BlockSize r -> 0 < MaxDataOp r ->
  steady (BlockSize r) (BlockSize r * 3 + MaxDataOp r) s ->
  refill r s = Continue s1 ->
  (head (sum s) < validTo s /\ s1 = s) \/
  (validTo s <= head (sum s) /\
   head (sum s1) = head (sum s) /\
   0 <= tail (sum s1) /\
   0 <= validTo s1 <= BlockSize r * 3 + MaxDataOp r /\
   len (buffer s1) = BlockSize r * 3 + MaxDataOp r /\
   0 < len (pending (unread s)) /\
   (lastRun s1 = false -> len (pending (unread s1)) + BlockSize r = len (pending (unread s)))).
Proof.
  intros Hbs Hmdo ((Hv0 & Hv1) & Ht & Hh & Hbuf). unfold refill.
  destruct (Z.geb_spec (head (sum s)) (validTo s)) as [Hge|Hlt].
  2:{ intros [= <-]. left. split; [lia|reflexivity]. }
  rewrite Hbuf.
  set (cap := BlockSize r * 3 + MaxDataOp r) in *.
  set (wrap := validTo s + BlockSize r >? cap).
  set (q := if wrap then 0 else validTo s).
  assert (Hq : 0 <= q /\ q + BlockSize r <= cap).
  { subst q wrap cap. destruct (Z.gtb_spec (validTo s + BlockSize r) (BlockSize r * 3 + MaxDataOp r));
      lia. }
  destruct (slice (buffer s) q (q + BlockSize r)); [|discriminate].
  destruct (ReadAtLeast (unread s) (BlockSize r)) as [[got err] src'] eqn:Hread.
  destruct (ReadAtLeast_takes _ _ _ _ _ Hbs Hread) as (Hgot & Hrest & Hfull).
  pose proof (len_nonneg got) as Hg0. pose proof (len_nonneg (pending src')) as Hs0.
  assert (Hblit : len (blit (buffer s) q got) = cap) by (rewrite len_blit; lia).
  assert (Htail : 0 <= (if wrap then 0 else tail (sum s))) by (destruct wrap; lia).
  destruct err as [e|].
  - destruct (negb (error_eqb e EOF) && negb (error_eqb e ErrUnexpectedEOF));
      [intros; discriminate|].
    destruct (Z.eqb_spec (len got) 0); [intros; discriminate|]. intros [= <-]. right. simpl.
    repeat split; try lia; try assumption.
  - specialize (Hfull eq_refl).
    destruct (Z.eqb_spec (len got) 0); [intros; discriminate|]. intros [= <-]. right. simpl.
    repeat split; try lia; assumption.
Qed.

(** A round that goes on either is the last or leaves less to do. *)
Lemma iter_progress r hashLookup s s' :
  0 < BlockSize r -> 0 < MaxDataOp r ->
  steady (BlockSize r) (BlockSize r * 3 + MaxDataOp r) s ->
  iter r hashLookup s = Continue s' ->
  1 <= remaining (BlockSize r * 3 + MaxDataOp r) s /\
  (lastRun s' = false ->
   steady (BlockSize r) (BlockSize r * 3 + MaxDataOp r) s' /\
   remaining (BlockSize r * 3 + MaxDataOp r) s' < remaining (BlockSize r * 3 + MaxDataOp r) s).
Proof.
  intros Hbs Hmdo Hst. set (cap := BlockSize r * 3 + MaxDataOp r) in *.
  unfold iter, advance.
  destruct (refill r s) as [s1| | |] eqn:Hr; try discriminate. cbn [bind].
  destruct (wrapFlush s1) as [s2| | |] eqn:Hw; try discriminate. cbn [bind].
  destruct (window r s2) as [s3| | |] eqn:Hwin; try discriminate. cbn [bind].
  destruct (probe r hashLookup s3) as [[blockIndex foundHash]|]; [|discriminate].
  intros He.
  apply wrapFlush_frame in Hw. destruct Hw as (Hw1 & Hw2 & Hw3 & Hw4 & Hw5).
  apply window_frame in Hwin. destruct Hwin as (Hn1 & Hn2 & Hn3 & Hn4 & Hn5 & Hn6).
  apply emit_frame in He. destruct He as (He1 & He2 & He3 & He4 & He5 & He6).
  assert (Hhead : head (sum s') = min (tail (sum s1) + BlockSize r) (validTo s1)).
  { rewrite He1, Hn2, Hw1, Hw2. reflexivity. }
  assert (Htail : tail (sum s') = tail (sum s1) + BlockSize r \/ tail (sum s') = tail (sum s1) + 1).
  { rewrite Hn1, Hw1 in He2. exact He2. }
  assert (Hval : validTo s' = validTo s1) by congruence.
  assert (Hun : unread s' = unread s1) by congruence.
  assert (Hbuf : buffer s' = buffer s1) by congruence.
  assert (Hlr : lastRun s' = lastRun s1) by congruence.
  unfold remaining, steady. rewrite Hhead, Hval, Hun, Hbuf, Hlr. unfold min.
  pose proof (len_nonneg (pending (unread s))) as Hp0.
  pose proof (len_nonneg (pending (unread s1))) as Hp1.
  destruct (refill_frame r s s1 Hbs Hmdo Hst Hr)
    as [(Hlt & ->)|(Hge & Hh1 & Ht1 & Hv1 & Hb1 & Hpos & Hdec)].
  - destruct Hst as ((Hv0 & Hv1) & Ht & Hh & Hb). fold cap in Hv1, Hb.
    split; [nia|]. intros _.
    destruct (Z.ltb_spec (tail (sum s) + BlockSize r) (validTo s)); repeat split; try lia.
  - fold cap in Hv1, Hb1. split; [nia|]. intros Hnl. specialize (Hdec Hnl).
    assert (Hmax : Z.max 0 (validTo s1 - (if tail (sum s1) + BlockSize r <? validTo s1
                                          then tail (sum s1) + BlockSize r else validTo s1))
                   <= cap).
    { destruct (Z.ltb_spec (tail (sum s1) + BlockSize r) (validTo s1)); lia. }
    split.
    + destruct (Z.ltb_spec (tail (sum s1) + BlockSize r) (validTo s1)); repeat split; try lia.
    + assert (len (pending (unread s1)) * (cap + 1) + (cap + 1)
              <= len (pending (unread s)) * (cap + 1)) by nia.
      lia.
Qed.

Lemma CreateDelta_loop_returns r hashLookup : forall fuel s,
  0 < BlockSize r -> 0 < MaxDataOp r ->
  steady (BlockSize r) (BlockSize r * 3 + MaxDataOp r) s ->
  remaining (BlockSize r * 3 + MaxDataOp r) s < Z.of_nat fuel ->
  (CreateDelta_loop fuel r hashLookup s).2 <> OutOfFuel.
Proof.
  induction fuel as [|fuel IH]; intros s Hbs Hmdo Hst Hfuel.
  { exfalso. unfold remaining in Hfuel. pose proof (len_nonneg (pending (unread s))).
    assert (0 <= BlockSize r * 3 + MaxDataOp r + 1) by lia. nia. }
  cbn [CreateDelta_loop]. destruct (lastRun s) eqn:Hlr; [discriminate|].
  destruct (iter r hashLookup s) as [s'| | |] eqn:Hiter; try discriminate.
  destruct (iter_progress r hashLookup s s' Hbs Hmdo Hst Hiter) as (Hone & Hnext).
  destruct (lastRun s') eqn:Hlr'.
  - destruct fuel as [|fuel]; [lia|]. cbn [CreateDelta_loop]. rewrite Hlr'. discriminate.
  - destruct (Hnext eq_refl) as (Hst' & Hless). apply IH; try assumption. lia.
Qed.

(** [CreateDelta] returns or panics: the rounds the model gives its loop are
    never used up. *)
Theorem CreateDelta_returns r source signature :
  (CreateDelta md5 r source signature).2 <> OutOfFuel.
Proof.
  unfold CreateDelta.
  set (r1 := if BlockSize r <=? 0 then _ else r).
  set (r2 := if MaxDataOp r1 <=? 0 then _ else r1).
  set (r3 := match UniqueHasher r2 with None => _ | Some _ => r2 end).
  assert (Hbs : 0 < BlockSize r3 /\ 0 < MaxDataOp r3).
  { subst r3 r2 r1. destruct r as [bs mdo [?|]]; simpl;
      destruct (Z.leb_spec bs 0); simpl; destruct (Z.leb_spec mdo 0); simpl;
      unfold DefaultBlockSize, DefaultMaxDataOp, DefaultBlockSize; lia. }
  destruct Hbs as (Hbs & Hmdo). clearbody r3. clear r1 r2.
  assert (Hst : steady (BlockSize r3) (BlockSize r3 * 3 + MaxDataOp r3) (scan0 r3 source)).
  { unfold steady, scan0. cbn [validTo sum tail head buffer].
    rewrite len_make by lia. lia. }
  assert (Hfuel : remaining (BlockSize r3 * 3 + MaxDataOp r3) (scan0 r3 source)
                  < Z.of_nat (rounds r3 source)).
  { unfold remaining, scan0, rounds. cbn [validTo sum tail head unread].
    pose proof (len_nonneg (pending source)). nia. }
  pose proof (CreateDelta_loop_returns r3 (hashLookup_of signature) (rounds r3 source)
                (scan0 r3 source) Hbs Hmdo Hst Hfuel) as H.
  destruct (CreateDelta_loop _ _ _ _) as [s res]. exact H.
Qed.

End Total.

(** * The theorems at concrete inputs *)

Section Witnesses.
Import RSync DeltaSpec Session Sample.
Local Open Scope string_scope.



Lemma apply_skips_unknown_witness :
  ApplyDelta_op config (mkWriter [] None) (mkReadSeeker (bytes "AAAABB") 0 EOF) (mkOp 3 0 (bytes "x"))
  = (mkWriter [] None, mkReadSeeker (bytes "AAAABB") 0 EOF, None)
  /\ ApplyDelta config (mkWriter [] None) (mkReadSeeker (bytes "AAAABB") 0 EOF)
       [mkOp 3 0 (bytes "x"); mkOp DATA 0 (bytes "y")]
     = ApplyDelta config (mkWriter [] None) (mkReadSeeker (bytes "AAAABB") 0 EOF)
         [mkOp DATA 0 (bytes "y")].
Proof.
  apply (apply_skips_unknown config (mkWriter [] None) (mkReadSeeker (bytes "AAAABB") 0 EOF)
           (mkOp 3 0 (bytes "x")) [mkOp DATA 0 (bytes "y")]);
    simpl; unfold BLOCK, DATA; lia.
Defined.

Lemma config_kept_when_set_witness :
  (CreateSignature tagHasher config (mkReader (bytes "AAAABB") EOF) collect []).1.1.1 = config
  /\ (CreateDelta tagHasher config (mkReader (bytes "AAAABB") EOF) sig).1.1.1 = config
  /\ (ApplyDelta config (mkWriter [] None) (mkReadSeeker (bytes "AAAA") 0 EOF)
        [mkOp BLOCK 0 []]).1.1.1 = config.
Proof.
  apply (config_kept_when_set tagHasher config tagHasher);
    [simpl; lia | simpl; lia | reflexivity].
Defined.

Lemma self_copy_blocks_then_tail_witness :
  exists sg idx tailOps,
    signature tagHasher config (bytes "AAAABB") = (config, sg, Returned None)
    /\ delta tagHasher config (bytes "AAAABB") sg
       = (config, map (fun i => mkOp BLOCK i []) idx ++ tailOps, Returned None)
    /\ len idx = len (bytes "AAAABB") / 4
    /\ Forall (fun op => Type_ op = DATA) tailOps
    /\ concat (map Data tailOps)
       = skipn (Z.to_nat (4 * (len (bytes "AAAABB") / 4))) (bytes "AAAABB")
    /\ (tailOps = [] <-> len (bytes "AAAABB") mod 4 = 0).
Proof.
  apply (self_copy_blocks_then_tail tagHasher tagHasher 4 8 ltac:(lia) ltac:(lia)
           (fun v H => nil_cons (eq_sym H)) (bytes "AAAABB")).
Defined.

End Witnesses.

Section BufferWitness.
Import SBuffer SBufferSpec Sample.
Local Open Scope string_scope.

Lemma buffer_contract_witness :
  wf smallBuffer /\
  Next smallBuffer 2
  = Ok (mkSlice (blit (backer smallBuffer) 0 (Session.bytes "abc")) 2, None,
        mkBuffer [] (blit (backer smallBuffer) 0 (Session.bytes "abc")) 0 3)
  /\ Used smallBuffer 1 = Panics ErrUsedTooMuch.
Proof.
  assert (Hwf : wf smallBuffer) by (unfold wf; simpl; unfold len; simpl; lia).
  pose proof (buffer_contract smallBuffer 2 1 Hwf ltac:(lia)) as (_ & Hnext & Hused & _).
  split; [exact Hwf|]. split; [vm_compute; reflexivity|].
  apply Hused. simpl. lia.
Defined.

End BufferWitness.

(** * More of rsync.go *)

Section WeakHashValue.
Import RSync WeakHashSpec.

Lemma mod_M_range x : 0 <= x mod _M < 2 ^ 16.
Proof. apply Z.mod_pos_bound. reflexivity. Qed.

(** The weak hash is the pair of sums the algorithm defines, each modulo
    [2^16], packed into 32 bits: the wrap-around of the [uint32] accumulators
    of [βhash] never shows in its result. *)
Theorem weak_hash_is_two_sums (v : list byte) :
  βhash v = (sumA v mod 2 ^ 16 + 2 ^ 16 * (sumB v mod 2 ^ 16),
             sumA v mod 2 ^ 16, sumB v mod 2 ^ 16)
  /\ 0 <= (βhash v).1.1 < 2 ^ 32.
Proof.
  rewrite βhash_sums. change _M with (2 ^ 16).
  pose proof (mod_M_range (sumA v)) as Ha. pose proof (mod_M_range (sumB v)) as Hb.
  change _M with (2 ^ 16) in Ha, Hb.
  assert (E : u32 (sumA v mod 2 ^ 16 + u32 (2 ^ 16 * (sumB v mod 2 ^ 16)))
              = sumA v mod 2 ^ 16 + 2 ^ 16 * (sumB v mod 2 ^ 16)).
  { unfold u32. rewrite (Z.mod_small (2 ^ 16 * _)) by lia. apply Z.mod_small. lia. }
  rewrite E. split; [reflexivity|]. simpl. lia.
Qed.

End WeakHashValue.

Section Lookup.
Import RSync DeltaSpec.

(** [findUniqueHash] finds an entry exactly when the digest asked for is not
    empty and an entry of the bucket has it; the index it returns is the
    [Index] of the first such entry, and 0 when there is none. *)
Theorem findUniqueHash_first_match (hh : list BlockHash) (hashValue : list byte) :
  (hashValue = [] \/ Forall (fun e => StrongHash e <> hashValue) hh ->
   findUniqueHash hh hashValue = (0, false))
  /\ (hashValue <> [] ->
      forall pre e post, hh = pre ++ e :: post ->
        StrongHash e = hashValue -> Forall (fun e' => StrongHash e' <> hashValue) pre ->
        findUniqueHash hh hashValue = (Index e, true)).
Proof.
  assert (Hmiss : forall l, Forall (fun e => StrongHash e <> hashValue) l ->
                            findUniqueHash_loop l hashValue = (0, false)).
  { induction 1 as [|x l Hx _ IH]; simpl; [reflexivity|].
    destruct (bytes_Equal (StrongHash x) hashValue) eqn:E; [|exact IH].
    apply bytes_Equal_eq in E. contradiction. }
  split.
  - intros [->|Hall]; [reflexivity|]. unfold findUniqueHash.
    destruct (len hashValue =? 0); [reflexivity|apply Hmiss, Hall].
  - intros Hne pre e post -> He Hpre. unfold findUniqueHash.
    destruct (Z.eqb_spec (len hashValue) 0) as [H0|_].
    { destruct hashValue; [congruence|len_lia]. }
    induction Hpre as [|x l Hx _ IH]; simpl.
    + replace (bytes_Equal (StrongHash e) hashValue) with true; [reflexivity|].
      symmetry. apply bytes_Equal_eq, He.
    + destruct (bytes_Equal (StrongHash x) hashValue) eqn:E; [|exact IH].
      apply bytes_Equal_eq in E. contradiction.
Qed.

(** The table [CreateDelta] builds from a signature holds, under each weak
    hash, the entries of the signature with that weak hash in signature
    order, and has no key for a weak hash no entry has. *)
Theorem hashLookup_is_bucket (signature : list BlockHash) (k : Z) :
  hashLookup_of signature !! k
  = match bucket k signature with
    | [] => None
    | hh => Some hh
    end.
Proof.
  pose proof (hashLookup_fold signature ∅ k) as E. rewrite lookup_empty in E. simpl in E.
  unfold hashLookup_of.
  destruct (fold_left _ signature ∅ !! k) as [hh|] eqn:Hl; simpl in E.
  - subst hh. destruct (bucket k signature) eqn:Hb; [|reflexivity].
    exfalso. revert Hl.
    assert (G : forall (sg : list BlockHash) (m : gmap Z (list BlockHash)),
              (forall hh, m !! k = Some hh -> hh <> []) ->
              forall hh, fold_left (fun hashLookup h =>
                  <[WeakHash h := default [] (hashLookup !! WeakHash h) ++ [h]]> hashLookup)
                  sg m !! k = Some hh -> hh <> []).
    { induction sg as [|x sg IH]; intros m Hm hh; simpl; [apply Hm|].
      apply IH. intros hh'. destruct (Z.eq_dec (WeakHash x) k) as [->|Hne].
      - rewrite lookup_insert_eq. intros [= <-]. now destruct (default [] (m !! k)).
      - rewrite lookup_insert_ne by exact Hne. apply Hm. }
    intros Hl. eapply G in Hl; [congruence|]. intros hh. now rewrite lookup_empty.
  - now rewrite <- E.
Qed.

End Lookup.

Section SignatureRecords.
Import RSync DeltaSpec SignatureSpec.

#[local] Arguments βhash : simpl never.
#[local] Arguments ReadAtLeast : simpl never.

Variable md5 : Hasher.
Variable h : Hasher.
Variables bs mdo : Z.
Hypothesis bs_pos : 0 < bs.
Variable basis : list byte.
Hypothesis basis_short : len basis < 2 ^ 64.

#[local] Abbreviation r := (mkRSync bs mdo (Some h)).

Lemma len_skipn {A} (v : list A) n : 0 <= n -> len (skipn (Z.to_nat n) v) = Z.max 0 (len v - n).
Proof. intros Hn. unfold len. rewrite length_skipn. lia. Qed.

Lemma BlockHashCount_bounds n :
  0 <= n ->
  let cnt := (BlockHashCount r n).2 in
  0 <= cnt /\ cnt * bs - bs < n <= cnt * bs.
Proof.
  intros Hn. unfold BlockHashCount. simpl.
  destruct (Z.leb_spec bs 0); [lia|]. simpl.
  rewrite Z.quot_div_nonneg, Z.rem_mod_nonneg by lia.
  pose proof (Z.div_mod n bs ltac:(lia)) as Hdm.
  pose proof (Z.mod_pos_bound n bs bs_pos) as Hm.
  assert (0 <= n / bs) by (apply Z.div_pos; lia).
  destruct (Z.eqb_spec (n mod bs) 0); simpl; nia.
Qed.

(** The loop of [CreateSignature] from block [idx] on, for any callback. *)
Lemma CreateSignature_loop_feeds {St} (sw : SignatureWriter St) fin cnt :
  (fin = EOF /\ cnt * bs - bs < len basis <= cnt * bs
   \/ (exists c, fin = ErrOther c) /\ cnt * bs <= len basis < cnt * bs + bs) ->
  0 <= cnt ->
  forall fuel idx st,
    0 <= idx <= cnt ->
    (length (skipn (Z.to_nat (idx * bs)) basis) < fuel)%nat ->
    exists rd,
      CreateSignature_loop fuel r (mkReader (skipn (Z.to_nat (idx * bs)) basis) fin) sw st idx
      = (rd,
         (feed sw st (map (recordAt h bs basis) (seqZ idx (cnt - idx)))).1,
         Returned (match (feed sw st (map (recordAt h bs basis) (seqZ idx (cnt - idx)))).2 with
                   | Some e => Some e
                   | None => match fin with EOF => None | e => Some e end
                   end)).
Proof.
  intros Hend Hcnt.
  induction fuel as [|fuel IH]; intros idx st Hidx Hfuel; [lia|].
  cbn [CreateSignature_loop]. unfold ReadAtLeast. cbn [pending ending BlockSize].
  set (pend := skipn (Z.to_nat (idx * bs)) basis) in *.
  assert (Hpend : len pend = Z.max 0 (len basis - idx * bs)).
  { subst pend. apply len_skipn. nia. }
  destruct (Z.leb_spec bs (len pend)) as [Hfull|Hshort].
  - assert (Hnext : idx + 1 <= cnt) by (destruct Hend as [(_ & ?)|(_ & ?)]; nia).
    assert (Hu : u64 (idx + 1) = idx + 1).
    { unfold u64. apply Z.mod_small. nia. }
    rewrite seqZ_cons by lia. cbn [map feed].
    replace (firstn (Z.to_nat bs) pend) with (blockAt bs basis idx) by reflexivity.
    change (recordAt h bs basis idx)
      with (mkBlockHash idx (h (blockAt bs basis idx)) (βhash (blockAt bs basis idx)).1.1).
    destruct (βhash (blockAt bs basis idx)) as [[weak b1] b2] eqn:Hβ.
    cbn [uniqueHash UniqueHasher fst].
    destruct (sw st _) as [st' [e|]] eqn:Hsw.
    + eexists. reflexivity.
    + rewrite Hu.
      assert (Hrest : skipn (Z.to_nat bs) pend = skipn (Z.to_nat ((idx + 1) * bs)) basis).
      { subst pend. rewrite skipn_skipn. f_equal. nia. }
      rewrite Hrest.
      destruct (IH (idx + 1) st' ltac:(lia)) as (rd & Hrun).
      { rewrite <- Hrest. rewrite length_skipn. unfold len in Hfull. lia. }
      replace (Z.succ idx) with (idx + 1) by lia.
      replace (Z.pred (cnt - idx)) with (cnt - (idx + 1)) by lia.
      exists rd. exact Hrun.
  - destruct Hend as [(-> & Hc)|((c & ->) & Hc)].
    + destruct (Z.eqb_spec (len pend) 0) as [H0|H0].
      * rewrite seqZ_nil by nia. eexists. reflexivity.
      * assert (cnt - idx = 1) as -> by nia.
        rewrite seqZ_cons, seqZ_nil by lia. cbn [map feed].
        replace pend with (blockAt bs basis idx).
        2:{ unfold blockAt. fold pend. apply firstn_all2. unfold len in Hshort. lia. }
        change (recordAt h bs basis idx)
          with (mkBlockHash idx (h (blockAt bs basis idx)) (βhash (blockAt bs basis idx)).1.1).
        destruct (βhash (blockAt bs basis idx)) as [[weak b1] b2] eqn:Hβ.
        cbn [uniqueHash UniqueHasher fst].
        destruct (sw st _) as [st' [e|]]; eexists; reflexivity.
    + rewrite seqZ_nil by nia. eexists. reflexivity.
Qed.

Lemma feed_collect st l : feed collect st l = (st ++ l, None).
Proof.
  revert st. induction l as [|b l IH]; intros st; simpl; [now rewrite app_nil_r|].
  rewrite IH. now rewrite <- app_assoc.
Qed.

(** [CreateSignature] on a basis that ends with [EOF] passes to its callback
    the records of the blocks in order, block [j] with index [j], its weak
    hash and its strong hash, the last block being what is left of the basis;
    it stops at the first error of the callback and returns it. The records
    number [BlockHashCount] of the length of the basis. *)
Theorem CreateSignature_feeds_blocks {St} (sw : SignatureWriter St) (st : St) :
  let records := map (recordAt h bs basis) (seqZ 0 (BlockHashCount r (len basis)).2) in
  len records = (BlockHashCount r (len basis)).2
  /\ exists rd,
       CreateSignature md5 r (mkReader basis EOF) sw st
       = (r, rd, (feed sw st records).1, Returned (feed sw st records).2).
Proof.
  cbv zeta. destruct (BlockHashCount_bounds (len basis) (len_nonneg basis)) as (Hc0 & Hc).
  set (cnt := (BlockHashCount r (len basis)).2) in *.
  split.
  { unfold len. rewrite length_map, length_seqZ. lia. }
  destruct (CreateSignature_loop_feeds sw EOF cnt (or_introl (conj eq_refl Hc)) Hc0
              (S (length basis)) 0 st ltac:(lia)) as (rd & Hrun).
  { rewrite length_skipn. lia. }
  exists rd. unfold CreateSignature. cbn [BlockSize MaxDataOp UniqueHasher pending].
  destruct (Z.leb_spec bs 0); [lia|]. cbn [BlockSize MaxDataOp UniqueHasher pending].
  change (skipn (Z.to_nat (0 * bs)) basis) with basis in Hrun. rewrite Z.sub_0_r in Hrun. rewrite Hrun.
  destruct (feed sw st _) as [st' [e|]]; reflexivity.
Qed.

(** With the callback that appends to a slice the signature is the list of
    the records of all blocks. *)
Lemma CreateSignature_collects_blocks :
  CreateSignature md5 r (mkReader basis EOF) collect []
  = (r, mkReader [] EOF,
     map (recordAt h bs basis) (seqZ 0 (BlockHashCount r (len basis)).2),
     Returned None).
Proof.
  destruct (BlockHashCount_bounds (len basis) (len_nonneg basis)) as (Hc0 & Hc).
  set (cnt := (BlockHashCount r (len basis)).2) in *.
  assert (Hrd : forall fuel pend (st : list BlockHash) idx,
             (CreateSignature_loop fuel r (mkReader pend EOF) collect st idx).1.1
             = mkReader [] EOF \/
             (CreateSignature_loop fuel r (mkReader pend EOF) collect st idx).2 = OutOfFuel).
  { induction fuel as [|fuel IH]; intros pend st idx; [right; reflexivity|].
    cbn [CreateSignature_loop]. unfold ReadAtLeast. cbn [pending ending BlockSize].
    destruct (Z.leb_spec bs (len pend)).
    - destruct (βhash _) as [[? ?] ?]. cbn [uniqueHash UniqueHasher collect]. apply IH.
    - destruct (len pend =? 0); [left; reflexivity|].
      destruct (βhash _) as [[? ?] ?]. left. reflexivity. }
  destruct (CreateSignature_loop_feeds collect EOF cnt (or_introl (conj eq_refl Hc)) Hc0
              (S (length basis)) 0 [] ltac:(lia)) as (rd & Hrun).
  { rewrite length_skipn. lia. }
  change (skipn (Z.to_nat (0 * bs)) basis) with basis in Hrun. rewrite Z.sub_0_r in Hrun.
  specialize (Hrd (S (length basis)) basis [] 0). rewrite Hrun in Hrd.
  rewrite feed_collect in Hrun, Hrd. cbn [fst snd app] in Hrun, Hrd.
  destruct Hrd as [->|Hrd]; [|discriminate].
  unfold CreateSignature. cbn [BlockSize MaxDataOp UniqueHasher pending].
  destruct (Z.leb_spec bs 0); [lia|]. cbn [BlockSize MaxDataOp UniqueHasher pending].
  rewrite Hrun. reflexivity.
Qed.

(** When the reads of the basis end with an error other than [EOF],
    [CreateSignature] returns that error after the records of the full
    blocks: the bytes of a partial last block are dropped. *)
Theorem CreateSignature_read_error (c : Z) :
  exists rd,
    CreateSignature md5 r (mkReader basis (ErrOther c)) collect []
    = (r, rd, map (recordAt h bs basis) (seqZ 0 (len basis / bs)),
       Returned (Some (ErrOther c))).
Proof.
  pose proof (len_nonneg basis) as Hn.
  pose proof (Z.div_mod (len basis) bs ltac:(lia)) as Hdm.
  pose proof (Z.mod_pos_bound (len basis) bs bs_pos) as Hm.
  assert (Hc0 : 0 <= len basis / bs) by (apply Z.div_pos; lia).
  assert (Hb : len basis / bs * bs <= len basis < len basis / bs * bs + bs).
  { rewrite (Z.mul_comm (len basis / bs) bs). lia. }
  destruct (CreateSignature_loop_feeds collect (ErrOther c) (len basis / bs)
              (or_intror (conj (ex_intro _ c eq_refl) Hb)) Hc0
              (S (length basis)) 0 [] ltac:(lia)) as (rd & Hrun).
  { rewrite length_skipn. lia. }
  change (skipn (Z.to_nat (0 * bs)) basis) with basis in Hrun. rewrite Z.sub_0_r in Hrun. rewrite feed_collect in Hrun.
  cbn [fst snd app] in Hrun.
  exists rd. unfold CreateSignature. cbn [BlockSize MaxDataOp UniqueHasher pending].
  destruct (Z.leb_spec bs 0); [lia|]. cbn [BlockSize MaxDataOp UniqueHasher pending].
  rewrite Hrun. reflexivity.
Qed.

End SignatureRecords.

Section ApplyOutput.
Import RSync DeltaSpec SignatureSpec.

(** One BLOCK read off a basis that ends with [EOF]. *)
Lemma ApplyDelta_op_block r out basis off op :
  0 < BlockSize r -> Type_ op = BLOCK ->
  0 <= BlockIndex op -> BlockSize r * BlockIndex op < 2 ^ 63 ->
  exists off',
    ApplyDelta_op r (mkWriter out None) (mkReadSeeker basis off EOF) op
    = (mkWriter (out ++ blockAt (BlockSize r) basis (BlockIndex op)) None,
       mkReadSeeker basis off' EOF, None).
Proof.
  intros Hbs Hty Hi Hoff. unfold ApplyDelta_op. rewrite Hty. simpl.
  rewrite (i64_small (BlockIndex op)) by nia. rewrite i64_small by nia.
  unfold Seek. replace (0 <=? BlockSize r * BlockIndex op) with true
    by (symmetry; apply Z.leb_le; nia).
  unfold ReadAtLeastAt, ReadAtLeast. simpl.
  replace (BlockSize r * BlockIndex op) with (BlockIndex op * BlockSize r) by lia.
  unfold blockAt.
  set (avail := skipn (Z.to_nat (BlockIndex op * BlockSize r)) basis).
  destruct (Z.leb_spec (BlockSize r) (len avail)) as [Hle|Hlt].
  - eexists. reflexivity.
  - rewrite (firstn_all2 avail) by (unfold len in Hlt; lia).
    destruct (Z.eqb_spec (len avail) 0) as [H0|H0].
    + assert (avail = []) as -> by (destruct avail; [reflexivity|len_lia]).
      rewrite app_nil_r. eexists. reflexivity.
    + eexists. reflexivity.
Qed.

(** The loop of [ApplyDelta] on an output that takes every write. *)
Lemma ApplyDelta_loop_writes r basis ops :
  0 < BlockSize r ->
  Forall (fun op => Type_ op = BLOCK ->
                    0 <= BlockIndex op /\ BlockSize r * BlockIndex op < 2 ^ 63) ops ->
  forall out off, exists off',
    ApplyDelta_loop r (mkWriter out None) (mkReadSeeker basis off EOF) ops
    = (mkWriter (out ++ concat (map (opBytes (BlockSize r) basis) ops)) None,
       mkReadSeeker basis off' EOF, None).
Proof.
  intros Hbs Hops. induction Hops as [|op ops Hop _ IH]; intros out off.
  - exists off. simpl. now rewrite app_nil_r.
  - cbn [ApplyDelta_loop map concat]. unfold opBytes at 1.
    destruct (Z.eqb_spec (Type_ op) BLOCK) as [Hb|Hb].
    + destruct (Hop Hb) as (Hi & Hoff).
      destruct (ApplyDelta_op_block r out basis off op Hbs Hb Hi Hoff) as (off1 & ->).
      destruct (IH (out ++ blockAt (BlockSize r) basis (BlockIndex op)) off1) as (off' & ->).
      exists off'. now rewrite <- app_assoc.
    + unfold ApplyDelta_op.
      destruct (Z.eqb_spec (Type_ op) BLOCK) as [|_]; [contradiction|].
      destruct (Z.eqb_spec (Type_ op) DATA) as [Hd|Hd].
      * cbn [Write room written].
        destruct (IH (out ++ Data op) off) as (off' & ->).
        exists off'. now rewrite <- app_assoc.
      * destruct (IH out off) as (off' & ->). exists off'. reflexivity.
Qed.

(** On an output that takes every write and a basis that ends with [EOF],
    [ApplyDelta] returns no error and has written, in the order of the
    operations, the block of the basis for each BLOCK and the payload of each
    DATA, and nothing for an operation of another type. *)
Theorem ApplyDelta_writes_in_order r out basis off ops :
  0 < BlockSize r ->
  Forall (fun op => Type_ op = BLOCK ->
                    0 <= BlockIndex op /\ BlockSize r * BlockIndex op < 2 ^ 63) ops ->
  exists off',
    ApplyDelta r (mkWriter out None) (mkReadSeeker basis off EOF) ops
    = (r, mkWriter (out ++ concat (map (opBytes (BlockSize r) basis) ops)) None,
       mkReadSeeker basis off' EOF, None).
Proof.
  intros Hbs Hops. unfold ApplyDelta.
  destruct (Z.leb_spec (BlockSize r) 0) as [|_]; [lia|].
  destruct (ApplyDelta_loop_writes r basis ops Hbs Hops out off) as (off' & ->).
  exists off'. reflexivity.
Qed.

(** An output with room for [q] more bytes ends with the first [q] bytes of
    what the operations write; [ApplyDelta] returns the error of the write
    that did not fit, and no error when everything fits. *)
Theorem ApplyDelta_short_write r out q basis off ops :
  0 < BlockSize r ->
  Forall (fun op => Type_ op = BLOCK ->
                    0 <= BlockIndex op /\ BlockSize r * BlockIndex op < 2 ^ 63) ops ->
  let all := concat (map (opBytes (BlockSize r) basis) ops) in
  exists w t,
    ApplyDelta r (mkWriter out (Some q)) (mkReadSeeker basis off EOF) ops
    = (r, w, t, if (length all <=? q)%nat then None else Some ErrShortWrite)
    /\ written w = out ++ firstn q all.
Proof.
  intros Hbs Hops. cbv zeta. unfold ApplyDelta.
  destruct (Z.leb_spec (BlockSize r) 0) as [|_]; [lia|].
  assert (G : exists w t,
             ApplyDelta_loop r (mkWriter out (Some q)) (mkReadSeeker basis off EOF) ops
             = (w, t, if (length (concat (map (opBytes (BlockSize r) basis) ops)) <=? q)%nat
                      then None else Some ErrShortWrite)
             /\ written w = out ++ firstn q (concat (map (opBytes (BlockSize r) basis) ops))).
  { revert out q off. induction Hops as [|op ops Hop _ IH]; intros out q off.
    - eexists _, _. simpl. split; [reflexivity|]. simpl. now rewrite firstn_nil, app_nil_r.
    - cbn [ApplyDelta_loop map concat]. rewrite length_app.
      set (rest := concat (map (opBytes (BlockSize r) basis) ops)) in *.
      assert (Hw : forall p : list byte,
                 Write (mkWriter out (Some q)) p
                 = if (length p <=? q)%nat
                   then (mkWriter (out ++ p) (Some (q - length p)%nat), None)
                   else (mkWriter (out ++ firstn q p) (Some O), Some ErrShortWrite))
        by reflexivity.
      assert (Hfin : forall (p : list byte) t1,
                 (forall out' q', exists w t,
                     ApplyDelta_loop r (mkWriter out' (Some q')) t1 ops
                     = (w, t, if (length rest <=? q')%nat then None else Some ErrShortWrite)
                     /\ written w = out' ++ firstn q' rest) ->
                 exists w t,
                   match Write (mkWriter out (Some q)) p with
                   | (w1, Some e) => (w1, t1, Some e)
                   | (w1, None) => ApplyDelta_loop r w1 t1 ops
                   end
                   = (w, t, if (length p + length rest <=? q)%nat
                            then None else Some ErrShortWrite)
                   /\ written w = out ++ firstn q (p ++ rest)).
      { intros p t1 Hrec. rewrite Hw.
        destruct (Nat.leb_spec (length p) q) as [Hfit|Hover].
        - destruct (Hrec (out ++ p) (q - length p)%nat) as (w & t & Hrun & Hwr).
          exists w, t. rewrite Hrun. split.
          + destruct (Nat.leb_spec (length rest) (q - length p));
              destruct (Nat.leb_spec (length p + length rest) q); try lia; reflexivity.
          + rewrite Hwr, <- app_assoc. f_equal.
            rewrite firstn_app, (firstn_all2 p) by lia. reflexivity.
        - eexists _, _. split.
          + destruct (Nat.leb_spec (length p + length rest) q); [lia|reflexivity].
          + simpl. f_equal. rewrite firstn_app.
            replace (q - length p)%nat with O by lia. simpl. now rewrite app_nil_r. }
      unfold opBytes, ApplyDelta_op.
      destruct (Z.eqb_spec (Type_ op) BLOCK) as [Hb|Hb].
      + destruct (Hop Hb) as (Hi & Hoff).
        rewrite (i64_small (BlockIndex op)) by nia. rewrite i64_small by nia.
        unfold Seek. replace (0 <=? BlockSize r * BlockIndex op) with true
          by (symmetry; apply Z.leb_le; nia).
        unfold ReadAtLeastAt, ReadAtLeast. cbn [file offset fault pending ending].
        replace (BlockSize r * BlockIndex op) with (BlockIndex op * BlockSize r) by lia.
        unfold blockAt.
        set (avail := skipn (Z.to_nat (BlockIndex op * BlockSize r)) basis).
        destruct (Z.leb_spec (BlockSize r) (len avail)) as [Hle|Hlt].
        * destruct (Hfin (firstn (Z.to_nat (BlockSize r)) avail)
                     (mkReadSeeker basis (BlockIndex op * BlockSize r
                                          + len (firstn (Z.to_nat (BlockSize r)) avail)) EOF))
            as (w & t & Hrun & Hwr); [intros; apply IH|].
          exists w, t. split; [|exact Hwr].
          destruct (Write _ _) as [w1 [e|]]; exact Hrun.
        * rewrite (firstn_all2 avail) by (unfold len in Hlt; lia).
          destruct (Z.eqb_spec (len avail) 0) as [H0|H0].
          -- assert (avail = []) as -> by (destruct avail; [reflexivity|len_lia]).
             cbn [length Nat.add app].
             destruct (IH out q (BlockIndex op * BlockSize r + len (@nil byte))) as (w & t & Hrun & Hwr).
             exists w, t. split; [exact Hrun|exact Hwr].
          -- destruct (Hfin avail (mkReadSeeker basis (BlockIndex op * BlockSize r + len avail) EOF))
               as (w & t & Hrun & Hwr); [intros; apply IH|].
             exists w, t. split; [|exact Hwr].
             destruct (Write _ _) as [w1 [e|]]; exact Hrun.
      + destruct (Z.eqb_spec (Type_ op) DATA) as [Hd|Hd].
        * destruct (Hfin (Data op) (mkReadSeeker basis off EOF)) as (w & t & Hrun & Hwr);
            [intros; apply IH|].
          exists w, t. split; [|exact Hwr].
          destruct (Write _ _) as [w1 [e|]]; exact Hrun.
        * cbn [length Nat.add app]. apply IH. }
  destruct G as (w & t & -> & Hwr). exists w, t. split; [reflexivity|exact Hwr].
Qed.

End ApplyOutput.

(** * More of CreateDelta *)

Section DeltaSound.
Import RSync DeltaSpec SignatureSpec.

#[local] Arguments βhash : simpl never.
#[local] Arguments ReadAtLeast : simpl never.
#[local] Arguments blit : simpl never.
#[local] Arguments slice : simpl never.
#[local] Arguments index : simpl never.
#[local] Arguments roll : simpl never.

Variable md5 : Hasher.

Lemma slice_len {A} (v d : list A) lo hi :
  slice v lo hi = Some d -> 0 <= lo /\ lo <= hi /\ hi <= len v /\ len d = hi - lo.
Proof.
  unfold slice.
  destruct (Z.leb_spec 0 lo); [|discriminate].
  destruct (Z.leb_spec lo hi); [|discriminate].
  destruct (Z.leb_spec hi (len v)); [|discriminate].
  simpl. intros [= <-]. repeat split; try lia.
  unfold len in *. rewrite length_firstn, length_skipn. lia.
Qed.

Lemma sound_data signature cap (buf d : list byte) lo hi :
  len buf = cap -> slice buf lo hi = Some d -> sound signature cap (mkOp DATA 0 d).
Proof.
  intros Hbuf Hs. apply slice_len in Hs. right. simpl. repeat split; lia.
Qed.

Lemma refill_tidy r signature s :
  0 < BlockSize r ->
  tidy signature (len (buffer s)) s ->
  tidy signature (len (buffer s)) (stateOf (refill r s)).
Proof.
  intros Hbs Ht. unfold refill.
  destruct (head (sum s) >=? validTo s); [|exact Ht].
  set (q := if validTo s + BlockSize r >? len (buffer s) then 0 else validTo s).
  destruct (slice (buffer s) q (q + BlockSize r)) as [w|] eqn:Hs; [|exact Ht].
  apply slice_len in Hs. destruct Hs as (Hq0 & _ & Hq1 & _).
  destruct (ReadAtLeast (unread s) (BlockSize r)) as [[got err] src'] eqn:Hread.
  destruct (ReadAtLeast_takes _ _ _ _ _ Hbs Hread) as (Hgot & _ & _).
  pose proof (len_nonneg got) as Hg0.
  assert (Hblit : len (blit (buffer s) q got) = len (buffer s)) by (rewrite len_blit; lia).
  destruct Ht as (_ & Hops).
  destruct err as [e|].
  - destruct (negb (error_eqb e EOF) && negb (error_eqb e ErrUnexpectedEOF));
      [|destruct (len got =? 0)]; (split; [exact Hblit|exact Hops]).
  - destruct (len got =? 0); (split; [exact Hblit|exact Hops]).
Qed.

Lemma wrapFlush_tidy signature s :
  tidy signature (len (buffer s)) s ->
  tidy signature (len (buffer s)) (stateOf (wrapFlush s)).
Proof.
  intros Ht. unfold wrapFlush.
  destruct (tail (data s) >? head (data s)); [|exact Ht].
  destruct (slice _ _ _) as [d|] eqn:Hs; [|exact Ht].
  destruct Ht as (Hb & Hops). split; [reflexivity|]. simpl.
  apply Forall_app. split; [exact Hops|].
  constructor; [|constructor]. eapply sound_data; [reflexivity|exact Hs].
Qed.

Lemma window_tidy r signature s :
  tidy signature (len (buffer s)) s ->
  tidy signature (len (buffer s)) (stateOf (window r s)).
Proof.
  intros Ht. unfold window. destruct (negb (rolling s)).
  - destruct (slice _ _ _) as [v|]; [|exact Ht].
    destruct (βhash v) as [[? ?] ?]. exact Ht.
  - destruct (index _ _) as [b|]; [|exact Ht].
    destruct (roll _ _ _ _ _) as [[? ?] ?]. exact Ht.
Qed.

Lemma emit_tidy r signature s blockIndex foundHash :
  (foundHash = true ->
   exists e, In e signature /\ Index e = blockIndex /\ StrongHash e <> []) ->
  tidy signature (len (buffer s)) s ->
  tidy signature (len (buffer s)) (stateOf (emit r s blockIndex foundHash)).
Proof.
  intros Hfound (Hb & Hops). unfold emit.
  set (flushed := if dirty s && _ then _ else _).
  assert (Hfl : match flushed with
                | Some (ops', _, _) => Forall (sound signature (len (buffer s))) ops'
                | None => True
                end).
  { subst flushed. destruct (dirty s && _).
    - destruct (slice _ _ _) as [d|] eqn:Hs; [|exact I].
      apply Forall_app. split; [exact Hops|].
      constructor; [|constructor]. eapply sound_data; [reflexivity|exact Hs].
    - exact Hops. }
  destruct flushed as [[[ops' dirty'] data_tail']|]; [|split; assumption].
  destruct foundHash.
  - split; [reflexivity|]. simpl. apply Forall_app. split; [exact Hfl|].
    constructor; [|constructor]. left. simpl.
    split; [reflexivity|]. split; [reflexivity|]. apply Hfound. reflexivity.
  - destruct (if negb (lastRun s) then _ else _); [|split; assumption].
    split; [reflexivity|exact Hfl].
Qed.

Lemma findUniqueHash_found (hh : list BlockHash) hashValue i :
  findUniqueHash hh hashValue = (i, true) ->
  exists e, In e hh /\ Index e = i /\ StrongHash e = hashValue /\ hashValue <> [].
Proof.
  unfold findUniqueHash. destruct (Z.eqb_spec (len hashValue) 0) as [|Hne]; [discriminate|].
  assert (Hv : hashValue <> []) by (intros ->; apply Hne; reflexivity).
  induction hh as [|x hh IH]; simpl; [discriminate|].
  destruct (bytes_Equal (StrongHash x) hashValue) eqn:E.
  - intros [= <-]. apply bytes_Equal_eq in E. exists x. auto.
  - intros H. destruct (IH H) as (e & He & Hrest). exists e. auto.
Qed.

Lemma probe_found r signature s i :
  probe r (hashLookup_of signature) s = Some (i, true) ->
  exists e, In e signature /\ Index e = i /\ StrongHash e <> [].
Proof.
  unfold probe. destruct (hashLookup_of signature !! β s) as [hh|] eqn:Hl; [|discriminate].
  apply hashLookup_of_bucket in Hl.
  destruct (negb (lastRun s)); [|discriminate].
  destruct (slice _ _ _) as [v|]; [|discriminate].
  destruct (uniqueHash r v) as [hv|]; [|discriminate].
  intros [= Hf]. apply findUniqueHash_found in Hf.
  destruct Hf as (e & He & Hi & Hs & Hne). exists e. split; [|split; [exact Hi|congruence]].
  subst hh. unfold bucket in He. apply filter_In in He. apply He.
Qed.

Lemma tidy_step signature (f : flow) (k : scan -> flow) cap :
  tidy signature cap (stateOf f) ->
  (forall s, len (buffer s) = cap -> tidy signature cap s -> tidy signature cap (stateOf (k s))) ->
  tidy signature cap (stateOf (bind f k)).
Proof.
  intros Hf Hk. destruct f as [s| | |]; simpl in *; try exact Hf.
  apply Hk; [apply Hf|exact Hf].
Qed.

Lemma iter_tidy r signature s :
  0 < BlockSize r ->
  tidy signature (len (buffer s)) s ->
  tidy signature (len (buffer s)) (stateOf (iter r (hashLookup_of signature) s)).
Proof.
  intros Hbs Ht. unfold iter, advance.
  apply tidy_step; [apply tidy_step; [apply refill_tidy; assumption|]|].
  - intros s1 Hb1 Ht1. apply tidy_step.
    + rewrite <- Hb1. apply wrapFlush_tidy. rewrite Hb1. exact Ht1.
    + intros s2 Hb2 Ht2. rewrite <- Hb2. apply window_tidy. rewrite Hb2. exact Ht2.
  - intros s1 Hb1 Ht1.
    destruct (probe r (hashLookup_of signature) s1) as [[i found]|] eqn:Hp; [|exact Ht1].
    rewrite <- Hb1. apply emit_tidy; [|rewrite Hb1; exact Ht1].
    intros ->. eapply probe_found, Hp.
Qed.

Lemma CreateDelta_loop_tidy r signature : forall fuel s,
  0 < BlockSize r ->
  tidy signature (len (buffer s)) s ->
  tidy signature (len (buffer s)) (CreateDelta_loop fuel r (hashLookup_of signature) s).1.
Proof.
  induction fuel as [|fuel IH]; intros s Hbs Ht; [exact Ht|].
  cbn [CreateDelta_loop]. destruct (lastRun s); [exact Ht|].
  pose proof (iter_tidy r signature s Hbs Ht) as Hi.
  destruct (iter r (hashLookup_of signature) s) as [s'|s'|s' e|s']; simpl in Hi; try exact Hi.
  destruct Hi as (Hb & Hops). rewrite <- Hb. apply IH; [exact Hbs|].
  rewrite Hb. split; [exact Hb|exact Hops].
Qed.

(** Whatever the source and the signature, and however the call ends, every
    operation [CreateDelta] has sent is well formed: a BLOCK carries no data
    and the index of an entry of the signature whose strong hash is not
    empty, a DATA carries index 0 and at most as many bytes as the scan
    buffer holds, [BlockSize * 3 + MaxDataOp] for the values of the
    configuration after the call. *)
Theorem CreateDelta_ops_sound r source signature :
  let '(r', _, sentOps, _) := CreateDelta md5 r source signature in
  0 < BlockSize r' /\ 0 < MaxDataOp r' /\
  Forall (sound signature (BlockSize r' * 3 + MaxDataOp r')) sentOps.
Proof.
  unfold CreateDelta.
  set (r1 := if BlockSize r <=? 0 then _ else r).
  set (r2 := if MaxDataOp r1 <=? 0 then _ else r1).
  set (r3 := match UniqueHasher r2 with None => _ | Some _ => r2 end).
  assert (H1 : 0 < BlockSize r1).
  { subst r1. destruct (Z.leb_spec (BlockSize r) 0); [reflexivity|lia]. }
  assert (H2 : 0 < BlockSize r2 /\ 0 < MaxDataOp r2).
  { subst r2. destruct (Z.leb_spec (MaxDataOp r1) 0); simpl; [split; [exact H1|reflexivity]|lia]. }
  assert (H3 : 0 < BlockSize r3 /\ 0 < MaxDataOp r3).
  { subst r3. destruct (UniqueHasher r2); simpl; exact H2. }
  clearbody r3. clear r1 r2 H1 H2. destruct H3 as (Hbs & Hmdo).
  pose proof (CreateDelta_loop_tidy r3 signature (rounds r3 source) (scan0 r3 source) Hbs) as Hl.
  assert (Hcap : len (buffer (scan0 r3 source)) = BlockSize r3 * 3 + MaxDataOp r3).
  { simpl. apply len_make. lia. }
  rewrite Hcap in Hl.
  destruct (CreateDelta_loop _ _ _ _) as [s res]. simpl in Hl.
  split; [exact Hbs|]. split; [exact Hmdo|]. apply Hl. split; [exact Hcap|constructor].
Qed.

End DeltaSound.

(** * Sources made of blocks of the basis *)

Section AlignedSource.
Import RSync DeltaSpec SignatureSpec Session.

Variable md5 : Hasher.
Variable h : Hasher.
Variables bs mdo : Z.
Hypothesis bs_pos : 0 < bs.
Hypothesis mdo_pos : 0 < mdo.
Hypothesis digest_nonempty : forall v, h v <> [].
Hypothesis digest_injective : forall v w, h v = h w -> v = w.
Variable basis : list byte.
Hypothesis basis_short : len basis < 2 ^ 63.

#[local] Arguments βhash : simpl never.
#[local] Arguments ReadAtLeast : simpl never.
#[local] Arguments blit : simpl never.
#[local] Arguments slice : simpl never.

#[local] Abbreviation r := (mkRSync bs mdo (Some h)).
#[local] Abbreviation L := (bs * 3 + mdo).
#[local] Abbreviation cnt := ((BlockHashCount r (len basis)).2).
#[local] Abbreviation sig := (map (recordAt h bs basis) (seqZ 0 cnt)).

Lemma sig_entry e : In e sig -> exists j, 0 <= j < cnt /\ e = recordAt h bs basis j.
Proof.
  intros He. apply in_map_iff in He. destruct He as (j & <- & Hj).
  apply list_elem_of_In, elem_of_seqZ in Hj. exists j. split; [lia|reflexivity].
Qed.

Lemma sig_knows j : 0 <= j < cnt -> knows h sig (blockAt bs basis j).
Proof.
  intros Hj. exists (recordAt h bs basis j). split.
  - apply in_map_iff. exists j. split; [reflexivity|].
    apply list_elem_of_In, elem_of_seqZ. lia.
  - split; reflexivity.
Qed.

Lemma block_index j :
  0 <= j -> blockAt bs basis j <> [] -> 0 <= j < cnt.
Proof.
  intros Hj Hne.
  destruct (BlockHashCount_bounds h bs mdo bs_pos (len basis) (len_nonneg basis)) as (Hc0 & Hc).
  split; [exact Hj|].
  destruct (Z.lt_ge_cases j cnt) as [|Hge]; [assumption|]. exfalso. apply Hne.
  unfold blockAt. rewrite skipn_all2; [now rewrite firstn_nil|]. unfold len in *. nia.
Qed.

(** What the search finds for a block is an index at which the basis holds
    that block. *)
Lemma found_block blk i :
  findUniqueHash (bucket (βhash blk).1.1 sig) (h blk) = (i, true) ->
  0 <= i < cnt /\ blockAt bs basis i = blk.
Proof.
  intros Hf. apply findUniqueHash_found in Hf. destruct Hf as (e & He & Hi & Hs & _).
  unfold bucket in He. apply filter_In in He. destruct He as (He & _).
  apply sig_entry in He. destruct He as (j & Hj & ->). simpl in Hi, Hs. subst i.
  split; [exact Hj|]. apply digest_injective, Hs.
Qed.

(** A round that reads a block of the basis sends a BLOCK whose index is one
    at which the basis holds the block. *)
Lemma iter_matched_index p pv hs buf blk rest sentOps :
  0 <= p <= L -> len buf = L -> len blk = bs -> knows h sig blk ->
  exists q pv' hs' i,
    iter r (hashLookup_of sig) (matchedUpTo p pv hs buf (blk ++ rest) sentOps)
    = Continue (matchedUpTo (q + bs) pv' hs' (blit buf q blk) rest
                            (sentOps ++ [mkOp BLOCK i []]))
    /\ 0 <= q /\ q + bs <= L /\ 0 <= i < cnt /\ blockAt bs basis i = blk.
Proof.
  intros Hp Hbuf Hblk Hk. destruct hs as [[[a b] b1] b2].
  destruct (find_known h digest_nonempty sig blk Hk) as (i & Hfind & Hlook).
  destruct (found_block blk i Hfind) as (Hi & Hat).
  set (q := if p + bs >? L then 0 else p).
  assert (Hq : 0 <= q /\ q + bs <= L).
  { subst q. destruct (Z.gtb_spec (p + bs) (bs * 3 + mdo)); lia. }
  exists q, (if p + bs >? L then p else pv), (a, (βhash blk).1.1, (βhash blk).1.2, (βhash blk).2), i.
  split; [|repeat split; try lia; exact Hat].
  unfold iter, advance, refill, matchedUpTo. simpl.
  destruct (Z.geb_spec p p) as [_|]; [|lia].
  rewrite Hbuf. fold q.
  rewrite slice_ok by lia.
  rewrite ReadAtLeast_full by exact Hblk. rewrite Hblk.
  destruct (Z.eqb_spec bs 0); [lia|]. simpl.
  unfold wrapFlush. simpl.
  destruct (Z.gtb_spec p p); [lia|]. simpl.
  unfold window. simpl.
  replace (min (q + bs) (q + bs)) with (q + bs) by (unfold min; now destruct (q + bs <? q + bs)).
  assert (Hs : slice (blit buf q blk) q (q + bs) = Some blk).
  { clear -Hblk Hq Hbuf. rewrite <- Hblk in *. apply slice_blit_same; lia. }
  rewrite Hs. simpl.
  destruct (βhash blk) as [[β' β1'] β2'] eqn:Hβ. simpl in *.
  unfold probe. simpl. rewrite Hlook, Hs. simpl. rewrite Hfind.
  unfold emit. simpl. reflexivity.
Qed.

Lemma opBytes_data (tailOps : list Operation) :
  Forall (fun op => Type_ op = DATA) tailOps ->
  concat (map (opBytes bs basis) tailOps) = concat (map Data tailOps).
Proof.
  induction 1 as [|op l Hop _ IH]; [reflexivity|]. simpl. rewrite IH. f_equal.
  unfold opBytes. rewrite Hop. reflexivity.
Qed.

(** The loop on a source whose full blocks are blocks of the basis: what it
    sends makes [ApplyDelta] write the source. *)
Lemma loop_aligned : forall fuel pend p pv hs buf sentOps,
  0 <= p <= L -> len buf = L ->
  (forall k, 0 <= k -> (k + 1) * bs <= len pend ->
             exists j, 0 <= j /\ blockAt bs pend k = blockAt bs basis j) ->
  (length pend < fuel)%nat -> (pend <> [] -> (2 <= fuel)%nat) ->
  exists s' newOps,
    CreateDelta_loop fuel r (hashLookup_of sig) (matchedUpTo p pv hs buf pend sentOps)
    = (s', Returned None)
    /\ ops s' = sentOps ++ newOps
    /\ Forall (fun op => Type_ op = BLOCK -> 0 <= BlockIndex op < cnt) newOps
    /\ concat (map (opBytes bs basis) newOps) = pend.
Proof.
  induction fuel as [|fuel IH]; intros pend p pv hs buf sentOps Hp Hbuf Hcov Hfuel Hfuel2; [lia|].
  assert (Hlast : lastRun (matchedUpTo p pv hs buf pend sentOps) = false).
  { now destruct hs as [[[? ?] ?] ?]. }
  cbn [CreateDelta_loop]. rewrite Hlast.
  destruct (Z.le_gt_cases bs (len pend)) as [Hfull|Hshort].
  - set (blk := firstn (Z.to_nat bs) pend). set (rest := skipn (Z.to_nat bs) pend).
    assert (Hpend : pend = blk ++ rest) by (symmetry; apply firstn_skipn).
    assert (Hblk : len blk = bs) by (subst blk; rewrite len_firstn; lia).
    assert (Hrest : len pend = bs + len rest) by (rewrite Hpend, len_app; lia).
    assert (Hk : knows h sig blk).
    { destruct (Hcov 0 ltac:(lia) ltac:(lia)) as (j & Hj & Hat).
      change (blockAt bs pend 0) with blk in Hat. rewrite Hat. apply sig_knows.
      apply block_index; [exact Hj|]. rewrite <- Hat. intros E. rewrite E in Hblk.
      unfold len in Hblk. simpl in Hblk. lia. }
    destruct (iter_matched_index p pv hs buf blk rest sentOps Hp Hbuf Hblk Hk)
      as (q & pv' & hs' & i & Hiter & Hq0 & Hq1 & Hi & Hat).
    assert (Hcov' : forall k, 0 <= k -> (k + 1) * bs <= len rest ->
                               exists j, 0 <= j /\ blockAt bs rest k = blockAt bs basis j).
    { intros k Hk0 Hfit. subst rest. rewrite blockAt_skip by lia. apply Hcov; lia. }
    clearbody blk rest. clear Hcov. subst pend. rewrite Hiter.
    destruct (IH rest (q + bs) pv' hs' (blit buf q blk) (sentOps ++ [mkOp BLOCK i []]))
      as (s' & newOps & Hrun & Hops & Hidx & Hcat).
    { lia. }
    { rewrite len_blit; lia. }
    { exact Hcov'. }
    { rewrite length_app in Hfuel. unfold len in *. lia. }
    { intros Hne. assert (0 < len rest) by (destruct rest; [congruence|len_lia]).
      rewrite length_app in Hfuel. unfold len in *. lia. }
    exists s', (mkOp BLOCK i [] :: newOps). rewrite Hrun.
    split; [reflexivity|]. split; [rewrite Hops, <- app_assoc; reflexivity|].
    split; [constructor; [intros _; exact Hi|exact Hidx]|].
    cbn [map concat]. rewrite Hcat. f_equal. unfold opBytes. simpl. exact Hat.
  - destruct (Z.eq_dec (len pend) 0) as [H0|H0].
    + assert (pend = []) as -> by (destruct pend; [reflexivity|len_lia]).
      destruct (iter_drained h bs mdo bs_pos mdo_pos p pv hs buf sentOps sig Hp Hbuf)
        as (s' & Hiter & Hops).
      rewrite Hiter. exists s', []. split; [reflexivity|]. rewrite Hops.
      split; [now rewrite app_nil_r|]. split; [constructor|reflexivity].
    + pose proof (len_nonneg pend).
      destruct (iter_partial h bs mdo bs_pos mdo_pos p pv hs buf pend sentOps sig Hp Hbuf ltac:(lia))
        as (s' & tailOps & Hiter & Hlr & Hops & Hdata & Hcat).
      rewrite Hiter.
      assert (2 <= S fuel)%nat as Hf by (apply Hfuel2; intros ->; len_lia).
      destruct fuel as [|fuel]; [lia|]. cbn [CreateDelta_loop]. rewrite Hlr.
      exists s', tailOps. split; [reflexivity|]. split; [exact Hops|].
      split.
      * eapply Forall_impl; [exact Hdata|]. intros op Hd Hb. simpl in Hd.
        rewrite Hd in Hb. discriminate.
      * rewrite opBytes_data by exact Hdata. exact Hcat.
Qed.

(** For a strong hasher that is injective and has no empty digest, and a
    source each of whose full blocks, cut at multiples of [BlockSize], is a
    block of the basis, one synchronisation makes the receiver write the
    source: [CreateSignature], [CreateDelta] and [ApplyDelta] return no error
    and the output is the source. The last, partial block of the source may
    be any bytes. *)
Theorem aligned_source_round_trip (source : list byte) :
  (forall k, 0 <= k -> (k + 1) * bs <= len source ->
             exists j, 0 <= j /\ blockAt bs source k = blockAt bs basis j) ->
  roundtrip md5 r basis source = (source, (Returned None, Returned None, None)).
Proof.
  intros Hcov.
  assert (Hb64 : len basis < 2 ^ 64) by lia.
  pose proof (CreateSignature_collects_blocks md5 h bs mdo bs_pos basis Hb64) as Hsig.
  assert (HL : 0 <= L) by lia.
  destruct (loop_aligned (rounds r (mkReader source EOF)) source 0 0 (0, 0, 0, 0)
              (make L) []) as (s' & newOps & Hrun & Hops & Hidx & Hcat).
  { lia. }
  { apply len_make, HL. }
  { exact Hcov. }
  { unfold rounds. simpl. unfold len. nia. }
  { intros Hne. unfold rounds. simpl.
    assert (0 < len source) by (destruct source; [congruence|len_lia]). nia. }
  simpl app in Hops.
  destruct (BlockHashCount_bounds h bs mdo bs_pos (len basis) (len_nonneg basis)) as (Hc0 & Hc).
  assert (Hsafe : Forall (fun op => Type_ op = BLOCK ->
                            0 <= BlockIndex op /\ BlockSize r * BlockIndex op < 2 ^ 63) newOps).
  { eapply Forall_impl; [exact Hidx|]. intros op Hop Hb. simpl in *.
    specialize (Hop Hb). split; [lia|]. nia. }
  destruct (ApplyDelta_loop_writes r basis newOps bs_pos Hsafe [] 0) as (off' & Hpatch).
  unfold roundtrip, signature. rewrite Hsig.
  unfold delta, CreateDelta. cbn [BlockSize MaxDataOp UniqueHasher pending].
  destruct (Z.leb_spec bs 0); [lia|]. cbn [BlockSize MaxDataOp UniqueHasher pending].
  destruct (Z.leb_spec mdo 0); [lia|]. cbn [BlockSize MaxDataOp UniqueHasher pending].
  change (scan0 (mkRSync bs mdo (Some h)) (mkReader source EOF))
    with (matchedUpTo 0 0 (0, 0, 0, 0) (make L) source []).
  rewrite Hrun, Hops.
  unfold patch, ApplyDelta. cbn [BlockSize MaxDataOp UniqueHasher pending].
  destruct (Z.leb_spec bs 0); [lia|].
  cbn [BlockSize] in Hpatch. rewrite Hpatch. cbn [written app].
  rewrite Hcat. reflexivity.
Qed.

End AlignedSource.

(** * CreateDelta: the cursors stay inside the buffer *)

Section DeltaSafe.
Import RSync DeltaSpec SignatureSpec.

#[local] Arguments βhash : simpl never.
#[local] Arguments ReadAtLeast : simpl never.
#[local] Arguments blit : simpl never.
#[local] Arguments slice : simpl never.
#[local] Arguments index : simpl never.
#[local] Arguments roll : simpl never.

Variable md5 : Hasher.

Lemma ReadAtLeast_ends rd bs got e rd' :
  ReadAtLeast rd bs = (got, Some e, rd') ->
  pending rd' = [] /\ (e = ending rd \/ ending rd = EOF).
Proof.
  unfold ReadAtLeast. destruct (bs <=? len (pending rd)); [discriminate|].
  intros [= <- <- <-]. simpl. split; [reflexivity|].
  destruct (ending rd); auto.
Qed.

Lemma ReadAtLeast_ending rd bs got err rd' :
  ReadAtLeast rd bs = (got, err, rd') -> ending rd' = ending rd.
Proof.
  unfold ReadAtLeast. destruct (bs <=? len (pending rd)); intros [= <- <- <-]; reflexivity.
Qed.

Lemma index_ok {A} (v : list A) i : 0 <= i < len v -> exists x, index v i = Some x.
Proof.
  intros Hi. unfold index. destruct (Z.leb_spec 0 i); [|lia].
  destruct (nth_error v (Z.to_nat i)) as [x|] eqn:E; [eauto|].
  apply nth_error_None in E. unfold len in Hi. lia.
Qed.

Lemma slice_some {A} (v : list A) lo hi :
  0 <= lo -> lo <= hi -> hi <= len v -> exists d, slice v lo hi = Some d /\ len d = hi - lo.
Proof.
  intros H0 H1 H2. eexists. split; [apply slice_ok; assumption|].
  unfold len in *. rewrite length_firstn, length_skipn. lia.
Qed.

Ltac have_slice H :=
  let d := fresh "d" in
  let E := fresh "Hsl" in
  destruct H as (d & E & _); [lia|lia|lia|rewrite E; clear E].

Ltac flush_slice Hdata :=
  match goal with
  | |- context [slice ?bf ?lo ?hi] =>
      let d := fresh "d" in
      let E := fresh "Hsl" in
      destruct (slice_some bf lo hi) as (d & E & _);
      [lia ..|rewrite E; clear E]
  end.

(** The read and the flush of the wrapped data. *)
Lemma refill_wrapFlush_primed r signature s :
  0 < BlockSize r -> 0 < MaxDataOp r ->
  safe r signature s -> lastRun s = false ->
  match bind (refill r s) wrapFlush with
  | Continue s2 =>
      primed r signature s2 /\ ending (unread s2) = ending (unread s) /\
      (lastRun s2 = true -> natural (ending (unread s)))
  | Panic _ => False
  | Break _ => natural (ending (unread s))
  | Fail _ e => e = ending (unread s) /\ ~ natural e
  end.
Proof.
  intros Hbs Hmdo Hsafe Hlr.
  destruct s as [[dt dh] [st sh] v pv aP b b1 b2 rol dty lr buf src sent].
  unfold safe in Hsafe. simpl in Hsafe, Hlr. subst lr.
  destruct Hsafe as ((Hv & Hbuf) & (Hdh & Hst & Hsh) & Hwin & Hdata).
  set (cap := BlockSize r * 3 + MaxDataOp r) in *.
  assert (Hdty : dty = true -> st <= sh).
  { intros ->. destruct Hwin as [?|(_ & _ & _ & ? & _)]; [lia|discriminate]. }
  assert (Hwin' : st <= sh \/ (sh = v /\ st < v + BlockSize r /\ rol = false
                               /\ shortMatch r signature)).
  { destruct Hwin as [?|(? & ? & ? & _ & ?)]; auto. }
  clear Hwin.
  unfold refill. cbn [sum data head tail validTo prevValidTo buffer unread lastRun dirty ops
                      αPop β β1 β2 rolling].
  destruct (Z.geb_spec sh v) as [Hread|Hno].
  - (* a block is read *)
    rewrite Hbuf.
    set (wrap := v + BlockSize r >? cap).
    set (q := if wrap then 0 else v).
    set (st1 := if wrap then 0 else st).
    set (pv1 := if wrap then v else pv).
    assert (Hcase : (q = 0 /\ st1 = 0 /\ pv1 = v /\ cap < v + BlockSize r)
                    \/ (q = v /\ st1 = st /\ pv1 = pv /\ v + BlockSize r <= cap)).
    { subst q st1 pv1 wrap. destruct (Z.gtb_spec (v + BlockSize r) cap); [left|right]; lia. }
    clearbody q st1 pv1. clear wrap.
    have_slice (slice_some buf q (q + BlockSize r)).
    destruct (ReadAtLeast src (BlockSize r)) as [[got err] src'] eqn:Hrd.
    destruct (ReadAtLeast_takes _ _ _ _ _ Hbs Hrd) as (Hgot & _ & Hfull).
    pose proof (ReadAtLeast_ending _ _ _ _ _ Hrd) as Hend.
    pose proof (len_nonneg got) as Hg0.
    assert (Hblit : len (blit buf q got) = cap) by (rewrite len_blit; lia).
    destruct err as [e|].
    + destruct (ReadAtLeast_ends _ _ _ _ _ Hrd) as (Hpend & He).
      destruct (negb (error_eqb e EOF) && negb (error_eqb e ErrUnexpectedEOF)) eqn:Hother.
      { simpl. split.
        - destruct He as [He|He]; [exact He|]. exfalso. revert Hrd. unfold ReadAtLeast.
          rewrite He. destruct (BlockSize r <=? len (pending src)); [discriminate|].
          intros [= _ <- _]. destruct (len (pending src) =? 0); discriminate.
        - intros [->| ->]; discriminate. }
      assert (Hnat : natural (ending src)).
      { destruct He as [<-|He]; [|left; exact He].
        destruct e; [left|right|]; try reflexivity. simpl in Hother. discriminate. }
      destruct (Z.eqb_spec (len got) 0) as [|Hn]; [exact Hnat|].
      cbn [bind]. unfold wrapFlush.
      cbn [sum data head tail validTo prevValidTo buffer unread lastRun dirty ops
           αPop β β1 β2 rolling].
      destruct (Z.gtb_spec dt (q + len got)) as [Hfl|Hnf]; [flush_slice Hdata|];
        (split; [|split; [exact Hend|intros _; exact Hnat]]);
        unfold primed; simpl; fold cap;
        (split; [exact Hblit|]); (split; [lia|]); (split; [lia|]); (split; [lia|]);
        (split; [exact Hpend|]); (split; [reflexivity|]); (split; [reflexivity|]);
        (destruct Hwin' as [?|(_ & _ & ? & ?)]; [left; lia|right; auto]).
    + specialize (Hfull eq_refl).
      destruct (Z.eqb_spec (len got) 0) as [|Hn]; [lia|].
      cbn [bind]. unfold wrapFlush.
      cbn [sum data head tail validTo prevValidTo buffer unread lastRun dirty ops
           αPop β β1 β2 rolling].
      assert (Hstv : st1 < q + len got) by lia.
      destruct (Z.gtb_spec dt dh) as [Hfl|Hnf]; [flush_slice Hdata|];
        (split; [|split; [exact Hend|intros; discriminate]]);
        unfold primed; simpl; fold cap;
        (split; [exact Hblit|]); (split; [lia|]); (split; [lia|]); (split; [lia|]);
        (split; [lia|]); (split; [lia|]);
        intros Hd; specialize (Hdty Hd); lia.
  - (* no read is due *)
    cbn [bind]. unfold wrapFlush.
    cbn [sum data head tail validTo prevValidTo buffer unread lastRun dirty ops
         αPop β β1 β2 rolling].
    destruct (Z.gtb_spec dt dh) as [Hfl|Hnf]; [flush_slice Hdata|];
      (split; [|split; [reflexivity|intros; discriminate]]);
      unfold primed; simpl; fold cap;
      (split; [exact Hbuf|]); (split; [lia|]); (split; [lia|]); (split; [lia|]);
      (split; [lia|]); (split; [lia|]);
      intros Hd; lia.
Qed.

(** The window is in place, or the slice for it fails: after the source
    ended, behind a match of a short window. *)
Lemma window_primed r signature s :
  0 < BlockSize r -> primed r signature s ->
  match window r s with
  | Continue s3 =>
      exists b b1 b2,
        s3 = mkScan (data s)
                    (mkSection (tail (sum s)) (min (tail (sum s) + BlockSize r) (validTo s)))
                    (validTo s) (prevValidTo s) (αPop s) b b1 b2 true (dirty s)
                    (lastRun s) (buffer s) (unread s) (ops s)
        /\ tail (sum s) <= validTo s
  | Panic s' => s' = s /\ lastRun s = true /\ pending (unread s) = [] /\ shortMatch r signature
  | _ => False
  end.
Proof.
  intros Hbs Hp.
  destruct s as [[dt dh] [st sh] v pv aP b b1 b2 rol dty lr buf src sent].
  unfold primed in Hp. simpl in Hp.
  destruct Hp as (Hbuf & Hst & Hv & Hdt & Hrest).
  set (cap := BlockSize r * 3 + MaxDataOp r) in *.
  unfold window. cbn [sum data head tail validTo prevValidTo buffer unread lastRun dirty ops
                      αPop β β1 β2 rolling].
  set (sh3 := min (st + BlockSize r) v).
  assert (Hsh3 : sh3 <= v /\ sh3 <= st + BlockSize r /\ (sh3 = v \/ sh3 = st + BlockSize r)).
  { subst sh3. unfold min. destruct (Z.ltb_spec (st + BlockSize r) v); lia. }
  clearbody sh3.
  destruct rol; cbn [negb].
  - destruct (index_ok buf (sh3 - 1)) as (x & ->); [lia|].
    destruct (roll _ _ _ _ _) as [[β' β1'] β2'].
    exists β', β1', β2'. split; [reflexivity|].
    destruct lr; [|lia]. destruct Hrest as (_ & _ & _ & [?|(? & _)]); [lia|discriminate].
  - destruct (Z.le_gt_cases st v) as [Hle|Hgt].
    + have_slice (slice_some buf st sh3).
      destruct (βhash d) as [[β' β1'] β2'].
      exists β', β1', β2'. split; [reflexivity|exact Hle].
    + destruct lr; [|lia]. destruct Hrest as (Hpend & _ & _ & [?|(_ & Hsm)]); [lia|].
      destruct (slice buf st sh3) as [w|] eqn:Hsl.
      { apply slice_len in Hsl. lia. }
      auto.
Qed.
(** The probe of the signature finds an entry only for a full window, unless
    the signature has the strong hash of a shorter one. *)
Lemma probe_primed r h signature dat st sh v pv aP b b1 b2 rol dty lr buf src sent :
  UniqueHasher r = Some h ->
  len buf = BlockSize r * 3 + MaxDataOp r ->
  0 <= st -> sh <= v -> v <= len buf -> sh <= st + BlockSize r -> (lr = false -> st <= sh) ->
  exists i f,
    probe r (hashLookup_of signature)
          (mkScan dat (mkSection st sh) v pv aP b b1 b2 rol dty lr buf src sent)
    = Some (i, f)
    /\ (f = true -> lr = false /\ (sh = st + BlockSize r \/ shortMatch r signature)).
Proof.
  intros Hh Hbuf Hst Hsh Hv Hw Hle. unfold probe.
  cbn [sum data head tail validTo prevValidTo buffer unread lastRun dirty ops
       αPop β β1 β2 rolling].
  destruct (hashLookup_of signature !! b) as [hh|] eqn:Hl.
  2:{ exists 0, false. split; [reflexivity|discriminate]. }
  destruct lr; cbn [negb].
  { exists 0, false. split; [reflexivity|discriminate]. }
  specialize (Hle eq_refl).
  destruct (slice_some buf st sh) as (d & -> & Hd); [lia|lia|lia|].
  unfold uniqueHash. rewrite Hh.
  destruct (findUniqueHash hh (h d)) as [i f] eqn:Hf.
  exists i, f. split; [reflexivity|]. intros ->. split; [reflexivity|].
  destruct (Z.eq_dec sh (st + BlockSize r)) as [|Hne]; [left; assumption|right].
  apply findUniqueHash_found in Hf. destruct Hf as (e & He & _ & Hs & _).
  apply hashLookup_of_bucket in Hl. subst hh. unfold bucket in He.
  apply filter_In in He. destruct He as (He & _).
  exists e, d. split; [exact He|]. split; [lia|]. unfold uniqueHash. rewrite Hh, Hs. reflexivity.
Qed.

(** The probe and what is sent after it. *)
Lemma emit_safe r h signature s b b1 b2 :
  UniqueHasher r = Some h -> 0 < BlockSize r -> 0 < MaxDataOp r ->
  primed r signature s -> tail (sum s) <= validTo s ->
  let s3 := mkScan (data s)
                   (mkSection (tail (sum s)) (min (tail (sum s) + BlockSize r) (validTo s)))
                   (validTo s) (prevValidTo s) (αPop s) b b1 b2 true (dirty s)
                   (lastRun s) (buffer s) (unread s) (ops s) in
  match match probe r (hashLookup_of signature) s3 with
        | None => Panic s3
        | Some (blockIndex, foundHash) => emit r s3 blockIndex foundHash
        end with
  | Continue s' =>
      lastRun s' = lastRun s /\ unread s' = unread s /\
      (lastRun s = false -> safe r signature s')
  | _ => False
  end.
Proof.
  intros Hh Hbs Hmdo Hp Hle.
  destruct s as [[dt dh] [st sh] v pv aP b0 b10 b20 rol dty lr buf src sent].
  unfold primed in Hp. simpl in Hp, Hle.
  destruct Hp as (Hbuf & Hst & Hv & Hdt & Hrest).
  cbn [sum data head tail validTo prevValidTo buffer unread lastRun dirty ops
       αPop β β1 β2 rolling]. cbv zeta.
  set (cap := BlockSize r * 3 + MaxDataOp r) in *.
  set (sh3 := min (st + BlockSize r) v).
  assert (Hsh3 : sh3 <= v /\ sh3 <= st + BlockSize r /\ (sh3 = v \/ sh3 = st + BlockSize r)).
  { subst sh3. unfold min. destruct (Z.ltb_spec (st + BlockSize r) v); lia. }
  clearbody sh3.
  destruct (probe_primed r h signature (mkSection dt dh) st sh3 v pv aP b b1 b2 true dty lr
              buf src sent Hh Hbuf) as (i & f & -> & Hf); try lia.
  unfold emit.
  cbn [sum data head tail validTo prevValidTo buffer unread lastRun dirty ops
       αPop β β1 β2 rolling].
  assert (Hdh : dty = true -> dh <= cap).
  { intros Hd. destruct lr; [lia|]. destruct Hrest as (_ & _ & Hlim). apply Hlim, Hd. }
  set (flushed := if dty && _ then _ else _).
  assert (Hfl : exists sent' dty' dt',
             flushed = Some (sent', dty', dt')
             /\ (dty' = true -> dty = true /\ f = false /\ lr = false)
             /\ (dt' = dt \/ (dt' = dh /\ dty = true))).
  { subst flushed. destruct (dty && (f || (dh - dt >=? MaxDataOp r) || lr)) eqn:Hc.
    - apply andb_prop in Hc. destruct Hc as (Hd & _).
      destruct (slice_some buf dt dh) as (d & -> & _); [lia|lia|specialize (Hdh Hd); lia|].
      eexists _, _, _. split; [reflexivity|]. split; [discriminate|]. right. auto.
    - eexists _, _, _. split; [reflexivity|]. split; [|left; reflexivity].
      intros ->. simpl in Hc. apply orb_false_elim in Hc. destruct Hc as (Hc & ?).
      apply orb_false_elim in Hc. destruct Hc as (? & _). auto. }
  destruct Hfl as (sent' & dty' & dt' & -> & Hdty' & Hdt').
  destruct f.
  - destruct (Hf eq_refl) as (-> & Hfull).
    split; [reflexivity|]. split; [reflexivity|]. intros _.
    unfold safe. simpl. fold cap.
    assert (dty' = false) as ->.
    { destruct dty'; [|reflexivity]. destruct (Hdty' eq_refl) as (_ & ? & _). discriminate. }
    destruct Hrest as (Hstv & _).
    split; [lia|]. split; [lia|]. split; [|left; lia].
    destruct Hfull as [->|Hsm]; [left; lia|].
    destruct (Z.eq_dec sh3 (st + BlockSize r)); [left; lia|right].
    repeat split; try lia; assumption.
  - destruct lr; cbn [negb option_map].
    + split; [reflexivity|]. split; [reflexivity|]. discriminate.
    + destruct Hrest as (Hstv & Hlimt & Hlimh).
      destruct (index_ok buf st) as (x & ->); [lia|]. cbn [option_map].
      split; [reflexivity|]. split; [reflexivity|]. intros _.
      unfold safe. simpl. fold cap.
      split; [lia|]. split; [lia|]. split; [left; lia|].
      destruct Hdt' as [->|(-> & Hd)].
      * lia.
      * destruct (Hlimh Hd) as (Hl & _). lia.
Qed.
Lemma bind_bind f k1 k2 : bind f (fun s => bind (k1 s) k2) = bind (bind f k1) k2.
Proof. now destruct f. Qed.

(** One round of the loop from a state where the source has not ended. *)
Lemma iter_safe r h signature s :
  UniqueHasher r = Some h -> 0 < BlockSize r -> 0 < MaxDataOp r ->
  safe r signature s -> lastRun s = false ->
  match iter r (hashLookup_of signature) s with
  | Continue s' =>
      ending (unread s') = ending (unread s) /\
      (lastRun s' = false -> safe r signature s') /\
      (lastRun s' = true -> natural (ending (unread s)))
  | Panic s' =>
      lastRun s' = true /\ pending (unread s') = [] /\ shortMatch r signature /\
      natural (ending (unread s))
  | Break _ => natural (ending (unread s))
  | Fail _ e => e = ending (unread s) /\ ~ natural e
  end.
Proof.
  intros Hh Hbs Hmdo Hsafe Hlr. unfold iter, advance.
  rewrite bind_bind.
  pose proof (refill_wrapFlush_primed r signature s Hbs Hmdo Hsafe Hlr) as H1.
  destruct (bind (refill r s) wrapFlush) as [s2| | |]; simpl; try exact H1; [|contradiction].
  destruct H1 as (Hp & Hend & Hnat).
  pose proof (window_primed r signature s2 Hbs Hp) as H2.
  destruct (window r s2) as [s3|?|? ?|s3]; simpl; try contradiction.
  - destruct H2 as (b & b1 & b2 & -> & Hle).
    pose proof (emit_safe r h signature s2 b b1 b2 Hh Hbs Hmdo Hp Hle) as H3.
    cbv zeta in H3.
    destruct (match probe _ _ _ with None => _ | Some _ => _ end) as [s'| | |];
      try contradiction.
    destruct H3 as (Hlr' & Hun & Hs'). rewrite Hun, Hlr'. split; [exact Hend|].
    split; [exact Hs'|exact Hnat].
  - destruct H2 as (-> & Hl & Hpend & Hsm). auto.
Qed.

(** The loop from such a state. *)
Lemma CreateDelta_loop_safe r h signature :
  UniqueHasher r = Some h -> 0 < BlockSize r -> 0 < MaxDataOp r ->
  forall fuel s,
    (lastRun s = false -> safe r signature s) ->
    (lastRun s = true -> natural (ending (unread s))) ->
    match CreateDelta_loop fuel r (hashLookup_of signature) s with
    | (s', Panicked) =>
        pending (unread s') = [] /\ shortMatch r signature /\ natural (ending (unread s))
    | (s', Returned None) => natural (ending (unread s))
    | (s', Returned (Some e)) => e = ending (unread s) /\ ~ natural e
    | (s', OutOfFuel) => True
    end.
Proof.
  intros Hh Hbs Hmdo. induction fuel as [|fuel IH]; intros s Hs Hn; [exact I|].
  cbn [CreateDelta_loop]. destruct (lastRun s) eqn:Hlr; [apply Hn; reflexivity|].
  pose proof (iter_safe r h signature s Hh Hbs Hmdo (Hs eq_refl) Hlr) as Hi.
  destruct (iter r (hashLookup_of signature) s) as [s'|s'|s' e|s'].
  - destruct Hi as (Hend & Hs' & Hn').
    specialize (IH s' Hs'). rewrite Hend in IH. specialize (IH Hn').
    destruct (CreateDelta_loop fuel r (hashLookup_of signature) s') as [s'' [[e|]| |]];
      exact IH.
  - exact Hi.
  - exact Hi.
  - destruct Hi as (_ & ? & ? & ?). auto.
Qed.
(** The configuration [CreateDelta] works with, and the loop on it. *)
Lemma CreateDelta_outcome r source signature :
  let '(r', rd, _, res) := CreateDelta md5 r source signature in
  match res with
  | Panicked => pending rd = [] /\ shortMatch r' signature /\ natural (ending source)
  | Returned None => natural (ending source)
  | Returned (Some e) => e = ending source /\ ~ natural e
  | OutOfFuel => False
  end.
Proof.
  unfold CreateDelta.
  set (r1 := if BlockSize r <=? 0 then _ else r).
  set (r2 := if MaxDataOp r1 <=? 0 then _ else r1).
  set (r3 := match UniqueHasher r2 with None => _ | Some _ => r2 end).
  assert (Hbs : 0 < BlockSize r3 /\ 0 < MaxDataOp r3 /\ exists h, UniqueHasher r3 = Some h).
  { subst r3 r2 r1. destruct r as [bs mdo [h|]]; simpl;
      destruct (Z.leb_spec bs 0); simpl; destruct (Z.leb_spec mdo 0); simpl;
      unfold DefaultBlockSize, DefaultMaxDataOp, DefaultBlockSize;
      (split; [lia|split; [lia|eauto]]). }
  destruct Hbs as (Hbs & Hmdo & h & Hh). clearbody r3. clear r1 r2.
  assert (Hst : steady (BlockSize r3) (BlockSize r3 * 3 + MaxDataOp r3) (scan0 r3 source)).
  { unfold steady, scan0. cbn [validTo sum tail head buffer].
    rewrite len_make by lia. lia. }
  assert (Hfuel : remaining (BlockSize r3 * 3 + MaxDataOp r3) (scan0 r3 source)
                  < Z.of_nat (rounds r3 source)).
  { unfold remaining, scan0, rounds. cbn [validTo sum tail head unread].
    pose proof (len_nonneg (pending source)). nia. }
  pose proof (CreateDelta_loop_returns r3 (hashLookup_of signature) (rounds r3 source)
                (scan0 r3 source) Hbs Hmdo Hst Hfuel) as Hret.
  assert (Hsafe : safe r3 signature (scan0 r3 source)).
  { unfold safe, scan0. simpl. rewrite len_make by lia. lia. }
  assert (Hn : lastRun (scan0 r3 source) = true ->
               natural (ending (unread (scan0 r3 source)))) by (simpl; discriminate).
  pose proof (CreateDelta_loop_safe r3 h signature Hh Hbs Hmdo (rounds r3 source)
                (scan0 r3 source) (fun _ => Hsafe) Hn) as Hl.
  change (ending (unread (scan0 r3 source))) with (ending source) in Hl.
  destruct (CreateDelta_loop _ _ _ _) as [s [[e|]| |]]; try exact Hl.
  apply Hret. reflexivity.
Qed.

(** When the reads of the source end with an error other than [EOF] and
    [ErrUnexpectedEOF], [CreateDelta] returns that error, whatever the
    signature: it neither panics nor reports success. *)
Theorem CreateDelta_read_error r pend c signature :
  (CreateDelta md5 r (mkReader pend (ErrOther c)) signature).2
  = Returned (Some (ErrOther c)).
Proof.
  pose proof (CreateDelta_outcome r (mkReader pend (ErrOther c)) signature) as H.
  destruct (CreateDelta _ _ _ _) as [[[r' rd] sent] res]. simpl in *.
  destruct res as [[e|]| |].
  - destruct H as (-> & _). reflexivity.
  - destruct H as [H|H]; discriminate.
  - destruct H as (_ & _ & [H|H]); discriminate.
  - contradiction.
Qed.

(** [CreateDelta] panics only in its last round, when the source has been
    read to its end, and only if the signature has an entry whose strong
    hash is that of a byte string shorter than a block, as the entry of a
    partial last block is: with no such entry the call returns. *)
Theorem CreateDelta_panic_after_short_match r source signature r' rd sentOps :
  CreateDelta md5 r source signature = (r', rd, sentOps, Panicked) ->
  pending rd = [] /\ natural (ending source) /\
  exists e v, In e signature /\ len v < BlockSize r' /\
              uniqueHash r' v = Some (StrongHash e).
Proof.
  intros H. pose proof (CreateDelta_outcome r source signature) as Ho.
  rewrite H in Ho. destruct Ho as (? & ? & ?). auto.
Qed.
End DeltaSafe.

(** * More of sbuffer.go *)

Section SBufferStream.
Import SBuffer SBufferSpec.

Lemma Read_rest u cap d e u' : Read u cap = (d, e, u') -> rest u = d ++ rest u'.
Proof.
  unfold Read. destruct u as [|[d0 e0] u0]; [intros [= <- <- <-]; reflexivity|].
  destruct (len d0 <=? cap); intros [= <- <- <-]; unfold rest; simpl; [reflexivity|].
  now rewrite app_assoc, firstn_skipn.
Qed.

Lemma Read_clean u cap d e u' :
  clean u -> Read u cap = (d, e, u') ->
  clean u' /\ (e = None \/ (e = Some EOF /\ u = [] /\ d = [] /\ u' = [])).
Proof.
  intros Hc. unfold Read. destruct u as [|[d0 e0] u0].
  - intros [= <- <- <-]. split; [constructor|]. right. auto.
  - apply Forall_cons in Hc. destruct Hc as (He & Hc). simpl in He. subst e0.
    destruct (len d0 <=? cap); intros [= <- <- <-]; split; auto.
    constructor; [reflexivity|exact Hc].
Qed.

Lemma fills_rest needed have room u got err u' :
  fills needed have room u got err u' -> rest u = got ++ rest u'.
Proof.
  induction 1 as [| ? ? ? ? ? ? ? Hr | ? ? ? ? ? ? ? ? ? Hr ? IH].
  - reflexivity.
  - eapply Read_rest, Hr.
  - rewrite (Read_rest _ _ _ _ _ Hr), IH. now rewrite app_assoc.
Qed.

Lemma fills_clean needed have room u got err u' :
  fills needed have room u got err u' -> clean u ->
  clean u' /\ ((err = None /\ needed <= have + len got)
               \/ (err = Some EOF /\ u' = [] /\ have + len got < needed)).
Proof.
  induction 1 as [| ? ? ? ? ? ? Hlt Hr | ? ? ? ? ? ? ? ? Hlt Hr ? IH]; intros Hc.
  - split; [exact Hc|]. left. split; [reflexivity|len_lia].
  - destruct (Read_clean _ _ _ _ _ Hc Hr) as (Hc' & [He|(He & _ & -> & ->)]);
      [discriminate|].
    split; [exact Hc'|]. right. split; [exact He|]. split; [reflexivity|len_lia].
  - destruct (Read_clean _ _ _ _ _ Hc Hr) as (Hc1 & _).
    destruct (IH Hc1) as (Hc' & Hcase). split; [exact Hc'|].
    rewrite len_app. destruct Hcase as [(? & ?)|(? & ? & ?)]; [left|right]; repeat split;
      try assumption; lia.
Qed.

(** [Next] on a buffer in order, for a request that fits the array. *)
Lemma Next_stream b needed :
  wf b -> 0 <= needed <= len (backer b) ->
  exists out err b',
    Next b needed = Ok (out, err, b') /\
    wf b' /\ len (backer b') = len (backer b) /\
    stream b' = stream b /\
    base out = skipn (Z.to_nat (tail b')) (backer b') /\
    slen out = Z.min needed (len (held b')) /\
    bytes_of out = firstn (Z.to_nat needed) (held b') /\
    (err = None -> needed <= len (held b')) /\
    (clean (Reader b) ->
     clean (Reader b') /\
     (err = None \/ (err = Some EOF /\ Reader b' = [] /\ len (held b') < needed))).
Proof.
  intros Hwf (Hn0 & Hn).
  set (b0 := if tail b + needed >? len (backer b) then compact b else b).
  assert (Hb0 : held b0 = held b /\ wf b0 /\ len (backer b0) = len (backer b)
                /\ tail b0 + needed <= len (backer b0) /\ Reader b0 = Reader b).
  { subst b0. destruct (Z.gtb_spec (tail b + needed) (len (backer b))).
    - destruct (held_compact b Hwf) as (? & ? & Hl). rewrite Hl. simpl.
      split; [assumption|]. split; [assumption|]. split; [reflexivity|]. split; [lia|reflexivity].
    - split; [reflexivity|]. split; [assumption|]. split; [reflexivity|].
      split; [lia|reflexivity]. }
  destruct Hb0 as (Hheld & Hwf0 & Hlen0 & Hfit0 & Hrd0).
  destruct (Next_loop_fills needed (S (reads (Reader b0))) b0 Hwf0 Hfit0 ltac:(lia))
    as (got & err & u' & Hfill & Hroom & Hrun).
  set (b' := mkBuffer u' (blit (backer b0) (head b0) got) (tail b0) (head b0 + len got)) in *.
  set (hi := min (tail b' + needed) (head b')).
  assert (Hlen' : len (backer b') = len (backer b0)).
  { subst b'. simpl. destruct Hwf0 as (? & ? & ?). apply len_blit; lia. }
  assert (Hwf' : wf b').
  { destruct Hwf0 as (? & ? & ?). pose proof (len_nonneg got).
    unfold wf. rewrite Hlen'. subst b'. simpl. lia. }
  assert (Hheld' : held b' = held b ++ got).
  { rewrite <- Hheld. unfold held. subst b'. simpl.
    destruct Hwf0 as (? & ? & ?). apply held_blit; lia. }
  pose proof (len_held b' Hwf') as Hlh.
  assert (Hhi : tail b' <= hi /\ hi <= head b' /\ hi - tail b' = Z.min needed (head b' - tail b')).
  { destruct Hwf' as (? & ? & ?). subst hi. unfold min.
    destruct (Z.ltb_spec (tail b' + needed) (head b')); lia. }
  exists (mkSlice (skipn (Z.to_nat (tail b')) (backer b')) (hi - tail b')), err, b'.
  split; [|split; [exact Hwf'|split; [lia|split; [|split; [reflexivity|split; [|split; [|split]]]]]]].
  - unfold Next. destruct (Z.gtb_spec needed (len (backer b))) as [|_]; [lia|].
    assert (Hpre : (if tail b + needed >? len (backer b)
                    then block ← orPanic (slice (backer b) (tail b) (head b));
                         Ok (mkBuffer (Reader b) (blit (backer b) 0 block) 0 (len block))
                    else Ok b) = Ok b0).
    { subst b0. destruct (tail b + needed >? len (backer b)); [|reflexivity].
      destruct Hwf as (? & ? & ?). rewrite slice_ok by lia. simpl.
      fold (held b). unfold compact. now rewrite len_held by (unfold wf; lia). }
    rewrite Hpre. cbn [mbind result_bind rbind]. rewrite Hrun. cbn [mbind result_bind rbind].
    fold hi. destruct Hwf' as (? & ? & ?).
    rewrite slice_ok by lia. reflexivity.
  - unfold stream. rewrite Hheld'. change (Reader b') with u'.
    rewrite <- Hrd0, (fills_rest _ _ _ _ _ _ _ Hfill). now rewrite app_assoc.
  - cbn [slen]. lia.
  - unfold bytes_of, held. cbn [slen base].
    destruct Hhi as (_ & _ & ->). destruct Hwf' as (? & ? & ?).
    rewrite take_take. f_equal. lia.
  - intros ->.
    assert (G : forall have room u got e u', fills needed have room u got e u' ->
                e = None -> needed <= have + len got).
    { clear. induction 1; intros E; try discriminate.
      - len_lia.
      - rewrite len_app. specialize (IHfills E). lia. }
    specialize (G _ _ _ _ _ _ Hfill eq_refl). rewrite Hlh. subst b'. simpl. lia.
  - intros Hc. rewrite <- Hrd0 in Hc.
    destruct (fills_clean _ _ _ _ _ _ _ Hfill Hc) as (Hc' & Hcase). split; [exact Hc'|].
    rewrite Hlh. subst b'. simpl.
    destruct Hcase as [(? & ?)|(? & ? & ?)]; [left; assumption|right].
    repeat split; try assumption. lia.
Qed.
Lemma held_prefix b : wf b -> forall n, 0 <= n <= len (held b) ->
  firstn (Z.to_nat n) (held b) = firstn (Z.to_nat n) (stream b).
Proof.
  intros Hwf n Hn. unfold stream. rewrite firstn_app.
  replace (Z.to_nat n - length (held b))%nat with O by (unfold len in Hn; lia).
  simpl. now rewrite app_nil_r.
Qed.

Lemma Used_stream b used :
  wf b -> 0 <= used <= len (held b) ->
  exists b', Used b used = Ok b' /\ wf b' /\ len (backer b') = len (backer b) /\
             Reader b' = Reader b /\
             held b' = skipn (Z.to_nat used) (held b) /\
             stream b' = skipn (Z.to_nat used) (stream b).
Proof.
  intros Hwf Hu. pose proof (len_held b Hwf) as Hl. destruct Hwf as (Ht & Hth & Hh).
  unfold Used. simpl. destruct (Z.gtb_spec (tail b + used) (head b)); [lia|].
  eexists. split; [reflexivity|]. split; [unfold wf; simpl; lia|].
  split; [reflexivity|]. split; [reflexivity|].
  assert (Hheld : held (mkBuffer (Reader b) (backer b) (tail b + used) (head b))
                  = skipn (Z.to_nat used) (held b)).
  { unfold held. simpl. rewrite skipn_firstn_comm, skipn_skipn. f_equal; [lia|f_equal; lia]. }
  split; [exact Hheld|]. unfold stream. rewrite Hheld. simpl.
  rewrite skipn_app. replace (Z.to_nat used - length (held b))%nat with O by (unfold len in Hu; lia).
  reflexivity.
Qed.

Lemma NewBuffer_stream u n :
  0 <= n -> wf (NewBuffer u n) /\ len (backer (NewBuffer u n)) = n /\
            held (NewBuffer u n) = [] /\ stream (NewBuffer u n) = rest u.
Proof.
  intros Hn. unfold NewBuffer, wf, stream, held. simpl.
  unfold len. rewrite repeat_length. repeat split; lia.
Qed.

(** The buffer hands out the bytes of its stream in order and loses none:
    [Next] leaves the stream, the bytes held and then those of the upstream,
    as it was, and returns its first bytes, [needed] of them unless the
    upstream ended or failed; [Used] then drops from the stream the bytes
    the caller consumed. *)
Theorem Next_reads_stream_in_order b needed :
  wf b -> 0 <= needed <= len (backer b) ->
  exists out err b',
    Next b needed = Ok (out, err, b') /\
    wf b' /\ stream b' = stream b /\
    slen out <= needed /\ (err = None -> slen out = needed) /\
    bytes_of out = firstn (Z.to_nat (slen out)) (stream b) /\
    forall used, 0 <= used <= slen out ->
      exists b'', Used b' used = Ok b'' /\ wf b'' /\
                  stream b'' = skipn (Z.to_nat used) (stream b).
Proof.
  intros Hwf Hn.
  destruct (Next_stream b needed Hwf Hn)
    as (out & err & b' & Hrun & Hwf' & Hlen & Hst & Hbase & Hslen & Hbytes & Herr & _).
  exists out, err, b'. pose proof (len_nonneg (held b')) as Hh0.
  split; [exact Hrun|]. split; [exact Hwf'|]. split; [exact Hst|].
  split; [lia|]. split; [intros E; specialize (Herr E); lia|]. split.
  - rewrite <- Hst, <- held_prefix by (assumption || lia).
    rewrite Hbytes, Hslen. destruct (Z.min_spec needed (len (held b'))) as [(? & ->)|(? & ->)].
    + reflexivity.
    + rewrite !firstn_all2; [reflexivity|unfold len in *; lia..].
  - intros used Hu.
    destruct (Used_stream b' used Hwf' ltac:(lia)) as (b'' & Hused & Hwf'' & _ & _ & _ & Hst'').
    exists b''. rewrite <- Hst. auto.
Qed.

(** On an upstream whose reads do not fail, [Next] returns fewer than
    [needed] bytes only at the end of the stream: either it returns the next
    [needed] bytes and no error, or the stream has fewer than [needed] bytes
    left and it returns all of them with [EOF]. *)
Theorem Next_short_only_at_end b needed :
  wf b -> 0 <= needed <= len (backer b) -> clean (Reader b) ->
  exists out err b',
    Next b needed = Ok (out, err, b') /\
    ((err = None /\ needed <= len (stream b) /\
      bytes_of out = firstn (Z.to_nat needed) (stream b))
     \/ (err = Some EOF /\ len (stream b) < needed /\ bytes_of out = stream b)).
Proof.
  intros Hwf Hn Hc.
  destruct (Next_stream b needed Hwf Hn)
    as (out & err & b' & Hrun & Hwf' & Hlen & Hst & Hbase & Hslen & Hbytes & Herr & Hclean).
  destruct (Hclean Hc) as (_ & Hcase).
  exists out, err, b'. split; [exact Hrun|]. rewrite <- Hst.
  destruct Hcase as [->|(-> & Hu & Hlt)].
  - left. specialize (Herr eq_refl). split; [reflexivity|].
    split; [unfold stream; rewrite len_app; pose proof (len_nonneg (rest (Reader b'))); lia|].
    rewrite Hbytes. apply held_prefix; [exact Hwf'|lia].
  - right. split; [reflexivity|].
    assert (Hs : stream b' = held b').
    { unfold stream. rewrite Hu. unfold rest. simpl. apply app_nil_r. }
    rewrite Hs. split; [exact Hlt|]. rewrite Hbytes.
    apply firstn_all2. unfold len in Hlt. lia.
Qed.
End SBufferStream.
